(** * Probabilistic Diffusion Inference: the reconstruction core

    A shallow embedding of

    - [pkg/reconstruction.py]: [power_law], [get_who_rtd_whom];
    - [data_analysis/reconstruct_all_cascades.py] (and its Bluesky twin
      [001_reconstruct_all_cascades.py]): [entire_cascade_reconstruction]
      and the version loop of the main block.

    Numbers.  Python and numpy compute with binary64 floats.  Here every
    finite float is an exact real number, so that rounding is left out and
    the statements below hold "over exact arithmetic".  What is kept of the
    float world is what the control flow depends on:

    - a Python scalar division by zero raises [ZeroDivisionError];
    - a numpy array division by zero raises nothing and stores [nan] or an
      infinity in the array;
    - [numpy.random.choice] checks its probability vector and raises
      [ValueError] when the check fails.

    Timestamps are integers ([int(dt.timestamp())] in the callers). *)

From Stdlib Require Import Reals Lra Lia List ZArith Bool Arith Sorted Relations.
From Stdlib Require Import ListSet.
From Stdlib Require String Ascii Decimal DecimalString DecimalNat.
Import ListNotations.

Open Scope R_scope.

(** ** Exceptions and results *)

Inductive exn : Set :=
| ZeroDivisionError
| ValueError
| TypeError
| IndexError.

Inductive result (A : Type) : Type :=
| Ok (a : A)
| Raise (e : exn).

Arguments Ok {A} a.
Arguments Raise {A} e.

Definition rbind {A B : Type} (m : result A) (k : A -> result B) : result B :=
  match m with
  | Ok a => k a
  | Raise e => Raise e
  end.

Declare Scope result_scope.
Delimit Scope result_scope with result.
Notation "x <- m ;; k" := (rbind m (fun x => k))
  (at level 61, m at next level, right associativity) : result_scope.

(** A list comprehension whose body may raise: elements are evaluated from
    left to right and the first exception escapes. *)
Fixpoint rmap {A B : Type} (f : A -> result B) (l : list A) : result (list B) :=
  match l with
  | [] => Ok []
  | a :: l' =>
      (b <- f a ;; bs <- rmap f l' ;; Ok (b :: bs))%result
  end.

(** ** Python scalars *)

(** [a / b] on Python numbers. *)
Definition py_div (a b : R) : result R :=
  if Req_dec_T b 0 then Raise ZeroDivisionError else Ok (a / b).

(** [b ** e] on Python floats.  A negative base with an exponent that is not
    a whole number gives a complex number in Python 3; the quadrature
    routine cannot turn the integrand's complex value into a float, which is
    recorded here as [TypeError]. *)
Definition py_pow (b e : R) : result R :=
  if Req_dec_T e 0 then Ok 1
  else if Rlt_dec 0 b then Ok (Rpower b e)
  else if Req_dec_T b 0 then
         (if Rlt_dec e 0 then Raise ZeroDivisionError else Ok 0)
  else if Req_dec_T (frac_part e) 0 then
         Ok ((if Z.even (Int_part e) then 1 else -1) * Rpower (- b) e)
  else Raise TypeError.

(** Builtin [sum] over a sequence of numbers: a left fold from [0]. *)
Definition py_sum (l : list R) : R := fold_left Rplus l 0.

(** [l[i]] for a non-negative index. *)
Definition py_index {A : Type} (l : list A) (i : nat) : result A :=
  match nth_error l i with
  | Some a => Ok a
  | None => Raise IndexError
  end.

(** ** numpy float arrays *)

(** An entry of a float64 array: a finite number, an infinity or [nan]. *)
Inductive npfloat : Set :=
| Fin (r : R)
| PInf
| NInf
| NaN.

(** [a / b] for finite [a] and [b] inside an array operation ([true_divide]):
    no exception, [0/0] is [nan] and [a/0] an infinity of the sign of [a]. *)
Definition np_true_divide (a b : R) : npfloat :=
  if Req_dec_T b 0 then
    if Req_dec_T a 0 then NaN
    else if Rlt_dec 0 a then PInf else NInf
  else Fin (a / b).

Definition np_opp (x : npfloat) : npfloat :=
  match x with
  | Fin r => Fin (- r)
  | PInf => NInf
  | NInf => PInf
  | NaN => NaN
  end.

(** The product of a finite number and [+inf]. *)
Definition np_scale_inf (a : R) : npfloat :=
  if Req_dec_T a 0 then NaN
  else if Rlt_dec 0 a then PInf else NInf.

Definition np_mul (x y : npfloat) : npfloat :=
  match x, y with
  | NaN, _ | _, NaN => NaN
  | Fin a, Fin b => Fin (a * b)
  | Fin a, PInf | PInf, Fin a => np_scale_inf a
  | Fin a, NInf | NInf, Fin a => np_opp (np_scale_inf a)
  | PInf, PInf | NInf, NInf => PInf
  | PInf, NInf | NInf, PInf => NInf
  end.

Definition np_add (x y : npfloat) : npfloat :=
  match x, y with
  | NaN, _ | _, NaN => NaN
  | Fin a, Fin b => Fin (a + b)
  | Fin _, PInf | PInf, Fin _ | PInf, PInf => PInf
  | Fin _, NInf | NInf, Fin _ | NInf, NInf => NInf
  | PInf, NInf | NInf, PInf => NaN
  end.

(** [scalar * array]. *)
Definition np_scalar_mul (c : R) (xs : list npfloat) : list npfloat :=
  map (np_mul (Fin c)) xs.

Fixpoint zip_with {A B C : Type} (f : A -> B -> C) (xs : list A) (ys : list B)
  : list C :=
  match xs, ys with
  | x :: xs', y :: ys' => f x y :: zip_with f xs' ys'
  | _, _ => []
  end.

(** [array + array] for two one-dimensional arrays: elementwise when the
    lengths agree, a length-one array is broadcast, any other pair of shapes
    raises [ValueError]. *)
Definition np_array_add (xs ys : list npfloat) : result (list npfloat) :=
  if (length xs =? length ys)%nat then Ok (zip_with np_add xs ys)
  else match xs, ys with
       | [x], _ => Ok (map (np_add x) ys)
       | _, [y] => Ok (map (fun x => np_add x y) xs)
       | _, _ => Raise ValueError
       end.

(** [array.sum()] of an array of finite numbers. *)
Definition np_sum (l : list R) : R := fold_right Rplus 0 l.

(** The finite entries of an array, when all of them are finite. *)
Fixpoint finite_values (p : list npfloat) : option (list R) :=
  match p with
  | [] => Some []
  | Fin r :: p' =>
      match finite_values p' with
      | Some rs => Some (r :: rs)
      | None => None
      end
  | _ :: _ => None
  end.

(** ** [scipy.integrate.quad]

    The integrator is not part of the repository.  It is taken as a
    quadrature rule on the reference interval [[-1, 1]]: nodes [x_k] with
    positive weights [w_k] of total 2 (a rule that is exact on constants),
    carried to [[a, b]] as [(b-a)/2 * sum_k w_k * f((a+b)/2 + (b-a)/2 * x_k)].
    The Gauss-Kronrod rules of QUADPACK are of this kind.  The integrand is
    a Python callback: if one of its evaluations raises, the exception
    escapes from [quad].  The routine returns the pair of the value and an
    estimate of the absolute error; nothing is assumed about the latter. *)
Record quadrature : Type := {
  rule : list (R * R);
  rule_nodes : Forall (fun nw => -1 <= fst nw <= 1) rule;
  rule_weights : Forall (fun nw => 0 < snd nw) rule;
  rule_total : np_sum (map snd rule) = 2;
  abserr : (R -> result R) -> R -> R -> R
}.

Definition quad (Q : quadrature) (f : R -> result R) (a b : R)
  : result (R * R) :=
  (let c := (a + b) / 2 in
   let h := (b - a) / 2 in
   terms <- rmap (fun nw => fx <- f (c + h * fst nw) ;; Ok (snd nw * fx))
                 (rule Q) ;;
   Ok (h * np_sum terms, abserr Q f a b))%result.

(** The points of [[a, b]] at which [quad] calls the integrand. *)
Definition quad_points (Q : quadrature) (a b : R) : list R :=
  map (fun nw => (a + b) / 2 + (b - a) / 2 * fst nw) (rule Q).

(** ** [numpy.random]: the global generator

    [random_sample] draws a float in [[0, 1)] and advances the state. *)
Record generator : Type := {
  state : Type;
  random_sample : state -> R * state;
  random_sample_range : forall s, 0 <= fst (random_sample s) < 1
}.

(** ** pkg/reconstruction.py *)

Definition epsilon : R := 1 / 10000.

(** The integrand of [power_law]:
    [lambda x: ((alpha - 1) / xmin) * ((xmin / x) ** alpha)]. *)
Definition power_law_integrand (alpha xmin x : R) : result R :=
  (c <- py_div (alpha - 1) xmin ;;
   q <- py_div xmin x ;;
   p <- py_pow q alpha ;;
   Ok (c * p))%result.

Definition power_law (Q : quadrature) (z alpha xmin : R) : result (R * R) :=
  quad Q (power_law_integrand alpha xmin) (z - epsilon) (z + epsilon).

(** The closed form named in the docstring of [power_law]. *)
Definition power_law_density (alpha xmin x : R) : R :=
  ((alpha - 1) / xmin) * Rpower (xmin / x) alpha.

Section Reconstruction.

Variable user : Type.
Variable Q : quadrature.
Variable G : generator.

(** A computation that may draw from the global generator and may raise. *)
Definition M (A : Type) : Type := state G -> result (A * state G).

Definition ret {A : Type} (a : A) : M A := fun s => Ok (a, s).

Definition bind {A B : Type} (m : M A) (k : A -> M B) : M B :=
  fun s =>
    match m s with
    | Ok (a, s') => k a s'
    | Raise e => Raise e
    end.

Definition lift {A : Type} (r : result A) : M A :=
  fun s =>
    match r with
    | Ok a => Ok (a, s)
    | Raise e => Raise e
    end.

(** *** [numpy.random.choice(a, p=p)]

    One draw, with replacement.  The vector [p] is checked first: a [nan] or
    infinite entry (the sum is then [nan] or infinite), a negative entry, or
    a sum further than [atol = sqrt(eps)] from 1 raise [ValueError].  A
    valid [p] is turned into its cumulative sums, divided by the last of
    them, and the index drawn is the insertion point of a uniform sample
    ([searchsorted] with [side='right']). *)
Definition atol : R := / 67108864.

Fixpoint cumsum (acc : R) (p : list R) : list R :=
  match p with
  | [] => []
  | x :: p' => (acc + x) :: cumsum (acc + x) p'
  end.

(** On a non-decreasing array: the first index whose entry exceeds [u]. *)
Fixpoint searchsorted_right (cdf : list R) (u : R) : nat :=
  match cdf with
  | [] => O
  | c :: cdf' => if Rlt_dec u c then O else S (searchsorted_right cdf' u)
  end.

Definition has_negative (p : list R) : bool :=
  existsb (fun x => if Rlt_dec x 0 then true else false) p.

Definition choice (a : list user) (p : list npfloat) : M user :=
  fun s =>
    if (length a =? 0)%nat then Raise ValueError
    else if negb (length p =? length a)%nat then Raise ValueError
    else match finite_values p with
         | None => Raise ValueError
         | Some ps =>
             if has_negative ps then Raise ValueError
             else if Rlt_dec atol (Rabs (np_sum ps - 1)) then Raise ValueError
             else
               let (u, s') := random_sample G s in
               let cdf := cumsum 0 ps in
               let cdf := map (fun c => c / last cdf 0) cdf in
               match nth_error a (searchsorted_right cdf u) with
               | Some x => Ok (x, s')
               | None => Raise IndexError
               end
         end.

(** *** [get_who_rtd_whom] *)

(** [poten_edge_fcounts / sum(poten_edge_fcounts)]. *)
Definition fcount_probabilities (poten_edge_fcounts : list R) : list npfloat :=
  let total_fcounts := py_sum poten_edge_fcounts in
  map (fun f => np_true_divide f total_fcounts) poten_edge_fcounts.

(** [curr_tstamp - poten_edge_tstamps]. *)
Definition time_diffs (curr_tstamp : Z) (poten_edge_tstamps : list Z) : list Z :=
  map (fun t => (curr_tstamp - t)%Z) poten_edge_tstamps.

(** [[power_law(tdiff + 0.1, alpha, xmin)[0] for tdiff in time_diffs]]. *)
Definition tdiff_probs (curr_tstamp : Z) (poten_edge_tstamps : list Z)
    (alpha xmin : R) : result (list R) :=
  rmap (fun tdiff =>
          (r <- power_law Q (IZR tdiff + 1 / 10) alpha xmin ;; Ok (fst r))%result)
       (time_diffs curr_tstamp poten_edge_tstamps).

(** [tdiff_probs / tdiff_probs.sum()]. *)
Definition norm_tstamp_prob_array (curr_tstamp : Z) (poten_edge_tstamps : list Z)
    (alpha xmin : R) : result (list npfloat) :=
  (ds <- tdiff_probs curr_tstamp poten_edge_tstamps alpha xmin ;;
   Ok (map (fun d => np_true_divide d (np_sum ds)) ds))%result.

(** The vector handed to the sampler:
    [gamma * fcount_probabilities + (1 - gamma) * norm_tstamp_prob_array]. *)
Definition indiv_probs (poten_edge_tstamps : list Z) (poten_edge_fcounts : list R)
    (curr_tstamp : Z) (gamma alpha xmin : R) : result (list npfloat) :=
  (let fcount_probs := fcount_probabilities poten_edge_fcounts in
   tstamp_probs <- norm_tstamp_prob_array curr_tstamp poten_edge_tstamps
                     alpha xmin ;;
   let weighted_fcount := np_scalar_mul gamma fcount_probs in
   let weighted_tstamp := np_scalar_mul (1 - gamma) tstamp_probs in
   np_array_add weighted_fcount weighted_tstamp)%result.

Definition get_who_rtd_whom (poten_edge_users : list user)
    (poten_edge_tstamps : list Z) (poten_edge_fcounts : list R)
    (curr_tstamp : Z) (gamma alpha xmin : R) : M user :=
  bind (lift (indiv_probs poten_edge_tstamps poten_edge_fcounts curr_tstamp
                gamma alpha xmin))
       (fun p => choice poten_edge_users p).

(** ** data_analysis/reconstruct_all_cascades.py *)

Definition edge : Type := (user * user)%type.

(** One turn of the loop of [entire_cascade_reconstruction]. *)
Definition reconstruction_step (poten_edge_users : list user)
    (poten_edge_tstamps : list Z) (poten_edge_fcounts : list R)
    (gamma alpha xmin : R) (edge_list : list edge) (idx : nat)
  : M (list edge) :=
  bind (lift (py_index poten_edge_tstamps idx)) (fun retweeter_tstamp =>
  bind (lift (py_index poten_edge_users idx)) (fun retweeter_tid =>
  let potential_tstamps := firstn idx poten_edge_tstamps in
  let potential_parents := firstn idx poten_edge_users in
  let potential_parents_fcounts := firstn idx poten_edge_fcounts in
  bind (get_who_rtd_whom potential_parents potential_tstamps
          potential_parents_fcounts retweeter_tstamp gamma alpha xmin)
       (fun inferred_parent =>
  ret (edge_list ++ [(inferred_parent, retweeter_tid)])))).

(** A [for] loop over a list of indices that threads the edge list. *)
Fixpoint for_each (body : list edge -> nat -> M (list edge)) (idxs : list nat)
    (edge_list : list edge) : M (list edge) :=
  match idxs with
  | [] => ret edge_list
  | idx :: idxs' => bind (body edge_list idx) (for_each body idxs')
  end.

(** [range(start, stop)]. *)
Definition range (start stop : nat) : list nat := seq start (stop - start).

Definition entire_cascade_reconstruction (poten_edge_users : list user)
    (poten_edge_tstamps : list Z) (poten_edge_fcounts : list R)
    (gamma alpha xmin : R) : M (list edge) :=
  bind (lift (py_index poten_edge_users 0)) (fun root =>
  bind (lift (py_index poten_edge_users 1)) (fun first_rt =>
  let edge_list := [(root, first_rt)] in
  let num_retweets := length poten_edge_tstamps in
  for_each (reconstruction_step poten_edge_users poten_edge_tstamps
              poten_edge_fcounts gamma alpha xmin)
           (range 2 num_retweets) edge_list)).

(** The call made by the loop at position [idx]: the candidates are the
    first [idx] entries and the current timestamp is the one at [idx]. *)
Definition engine_call (poten_edge_users : list user)
    (poten_edge_tstamps : list Z) (poten_edge_fcounts : list R)
    (gamma alpha xmin : R) (idx : nat) (retweeter_tstamp : Z) : M user :=
  get_who_rtd_whom (firstn idx poten_edge_users)
    (firstn idx poten_edge_tstamps) (firstn idx poten_edge_fcounts)
    retweeter_tstamp gamma alpha xmin.

(** What a run of the loop over the indices [start, start + len) that
    returns has done: it has appended one edge per index, each made of the
    parent returned by the engine at that index and of the user at that
    index, the generator state being handed from one call to the next. *)
Definition loop_trace (poten_edge_users : list user)
    (poten_edge_tstamps : list Z) (poten_edge_fcounts : list R)
    (gamma alpha xmin : R) (start len : nat) (s s' : state G)
    (new_edges : list edge) : Prop :=
  length new_edges = len
  /\ exists st : nat -> state G,
      st start = s /\ st (start + len)%nat = s'
      /\ forall i, (start <= i < start + len)%nat ->
           exists ts u p,
             nth_error poten_edge_tstamps i = Some ts
             /\ nth_error poten_edge_users i = Some u
             /\ engine_call poten_edge_users poten_edge_tstamps
                  poten_edge_fcounts gamma alpha xmin i ts (st i)
                = Ok (p, st (S i))
             /\ nth_error new_edges (i - start) = Some (p, u).

(** *** Edge lists as trees *)

(** The actor [v] is the child of exactly one edge of the list. *)
Definition child_once (edge_list : list edge) (v : user) : Prop :=
  exists k p,
    nth_error edge_list k = Some (p, v)
    /\ forall k' p', nth_error edge_list k' = Some (p', v) -> k' = k.

(** [(p, c)] is an edge: [c] reshared from [p]. *)
Definition edge_rel (edge_list : list edge) (p c : user) : Prop :=
  In (p, c) edge_list.

(** The actors that a chain of edges links to the root. *)
Inductive reaches (edge_list : list edge) (root : user) : user -> Prop :=
| reaches_root : reaches edge_list root root
| reaches_step (p c : user) :
    reaches edge_list root p -> edge_rel edge_list p c ->
    reaches edge_list root c.

(** A tree over [actors] rooted at [root]: every edge joins two actors,
    the root has no parent, every actor is linked to the root, and no chain
    of edges comes back to where it started. *)
Definition rooted_tree (root : user) (actors : list user)
    (edge_list : list edge) : Prop :=
  (forall p c, edge_rel edge_list p c -> In p actors /\ In c actors)
  /\ (forall p, ~ edge_rel edge_list p root)
  /\ (forall v, In v actors -> reaches edge_list root v)
  /\ (forall v, ~ clos_trans user (edge_rel edge_list) v v).

(** The shape of the edge lists the driver builds over the actors [users]:
    edge number [k] has the actor at position [k + 1] as its child and an
    actor at a position up to [k] as its parent. *)
Definition edge_shape (users : list user) (edge_list : list edge) : Prop :=
  length edge_list = (length users - 1)%nat
  /\ forall k c, nth_error users (S k) = Some c ->
       exists p j, nth_error edge_list k = Some (p, c)
                   /\ (j <= k)%nat /\ nth_error users j = Some p.

(** *** The main block: one cascade under one [(gamma, alpha)] *)

(** A row of the cleaned data frame. *)
Record tweet : Type := {
  tid : user;
  tweet_date : Z;
  user_followers : R
}.

Definition N_SIMULATIONS : nat := 100.

Definition XMIN : R := 1.

(** [1 if (num_tweets == 2) else N_SIMULATIONS]. *)
Definition num_cascade_versions (num_tweets : nat) : nat :=
  if (num_tweets =? 2)%nat then 1%nat else N_SIMULATIONS.

(** The reconstruction of one version from the rows of a cascade, already
    sorted by date. *)
Definition reconstruct (cascade_frame : list tweet) (gamma alpha xmin : R)
  : M (list edge) :=
  entire_cascade_reconstruction (map tid cascade_frame)
    (map tweet_date cascade_frame) (map user_followers cascade_frame)
    gamma alpha xmin.

(** [Parallel(...)(delayed(entire_cascade_reconstruction)(...) for _ in
    range(num_cascade_versions))]: every task runs in a worker process on
    the generator state its worker is in, given here by [worker_state]; the
    results come back in task order, and an exception of a task escapes. *)
Definition edge_lists (cascade_frame : list tweet) (gamma alpha : R)
    (worker_state : nat -> state G) : result (list (list edge)) :=
  rmap (fun task =>
          (r <- reconstruct cascade_frame gamma alpha XMIN (worker_state task) ;;
           Ok (fst r))%result)
       (range 0 (num_cascade_versions (length cascade_frame))).

End Reconstruction.

Arguments tid {user} _.
Arguments tweet_date {user} _.
Arguments user_followers {user} _.
Arguments Build_tweet {user} _ _ _.

(** ** The distributions over exact numbers

    The three vectors of [get_who_rtd_whom] when no division by zero occurs,
    used to state what the arrays of the code contain. *)

(** Follower counts divided by their sum. *)
Definition p_audience (fcounts : list R) : list R :=
  map (fun f => f / np_sum fcounts) fcounts.

(** Densities divided by their sum. *)
Definition p_time (densities : list R) : list R :=
  map (fun d => d / np_sum densities) densities.

(** [gamma * p_audience + (1 - gamma) * p_time], entry by entry. *)
Definition p_final (gamma : R) (pa pt : list R) : list R :=
  zip_with Rplus (map (fun a => gamma * a) pa) (map (fun t => (1 - gamma) * t) pt).

(** The time-decay distribution as the specification allows it to be
    computed: the closed form at each shifted gap, normalised.  It is
    compared with [norm_tstamp_prob_array], which integrates. *)
Definition closed_form_tstamp_probs (curr_tstamp : Z)
    (poten_edge_tstamps : list Z) (alpha xmin : R) : list R :=
  p_time (map (fun t => power_law_density alpha xmin
                          (IZR (curr_tstamp - t) + 1 / 10))
              poten_edge_tstamps).

(** ** Two instances, to run the model on concrete cascades *)

(** The midpoint rule: one node at the centre, of weight 2. *)
Definition midpoint : quadrature :=
  {| rule := [(0, 2)];
     rule_nodes := ltac:(repeat constructor; simpl; lra);
     rule_weights := ltac:(repeat constructor; simpl; lra);
     rule_total := ltac:(simpl; lra);
     abserr := fun _ _ _ => 0 |}.

(** Simpson's rule: the two end points and the centre. *)
Definition simpson : quadrature :=
  {| rule := [(-1, 1 / 3); (0, 4 / 3); (1, 1 / 3)];
     rule_nodes := ltac:(repeat constructor; simpl; lra);
     rule_weights := ltac:(repeat constructor; simpl; lra);
     rule_total := ltac:(simpl; lra);
     abserr := fun _ _ _ => 0 |}.

(** A generator whose every draw is [1/2]; its state counts the draws. *)
Definition halves : generator :=
  {| state := nat;
     random_sample := fun n => (1 / 2, S n);
     random_sample_range := fun _ => ltac:(simpl; lra) |}.

(** Cascades of three events, with actors numbered in order of arrival.
    The first is the scenario of the specification: a root at [t = 0], then
    events at [t = 10] and [t = 20].  In the second the first two actors
    have no follower. *)
Definition cascade_abc : list (tweet nat) :=
  [Build_tweet 0%nat 0%Z 50; Build_tweet 1%nat 10%Z 100;
   Build_tweet 2%nat 20%Z 900].

Definition cascade_no_audience : list (tweet nat) :=
  [Build_tweet 0%nat 0%Z 0; Build_tweet 1%nat 10%Z 0;
   Build_tweet 2%nat 20%Z 5].

(** A cascade of two events: the root and one reshare. *)
Definition cascade_pair : list (tweet nat) :=
  [Build_tweet 0%nat 0%Z 50; Build_tweet 1%nat 10%Z 100].

(** ** Relabelling the users *)

(** The image of the outcome of a computation when its value is mapped. *)
Definition relabel_result {S A B : Type} (g : A -> B)
    (r : result (A * S)) : result (B * S) :=
  match r with
  | Ok (a, s') => Ok (g a, s')
  | Raise e => Raise e
  end.

Definition relabel_edge {user user' : Type} (f : user -> user')
    (e : user * user) : user' * user' :=
  (f (fst e), f (snd e)).

(** ** The vertex set of a version

    The main block collects the two ends of every edge in a Python [set]
    before it builds the graph.  The set is a list without repetition; the
    order in which Python would enumerate it is not modelled. *)
Definition all_vertices {user : Type}
    (user_eq_dec : forall x y : user, {x = y} + {x <> y})
    (edge_list : list (user * user)) : set user :=
  fold_left (fun vertices e =>
               set_add user_eq_dec (snd e)
                 (set_add user_eq_dec (fst e) vertices))
            edge_list (empty_set user).

(** ** data_analysis/reconstruct_random_cascades.py *)

(** [numpy.random.randint(0, high)]: an integer below [high], for a positive
    [high]. *)
Record int_generator : Type := {
  int_state : Type;
  randint : int_state -> nat -> nat * int_state;
  randint_range : forall s high, (0 < high)%nat -> (fst (randint s high) < high)%nat
}.

(** [numpy.random.choice(a)] without [p]: an empty population raises
    [ValueError], otherwise the element at a uniformly drawn index is
    returned. *)
Definition uniform_choice {user : Type} (H : int_generator) (a : list user)
    (s : int_state H) : result (user * int_state H) :=
  if (length a =? 0)%nat then Raise ValueError
  else
    let (idx, s') := randint H s (length a) in
    match nth_error a idx with
    | Some x => Ok (x, s')
    | None => Raise IndexError
    end.

(** The loop of [generate_random_reconstruction] over a list of indices. *)
Fixpoint random_loop {user : Type} (H : int_generator)
    (poten_edge_users : list user) (idxs : list nat)
    (edge_list : list (user * user)) (s : int_state H)
  : result (list (user * user) * int_state H) :=
  match idxs with
  | [] => Ok (edge_list, s)
  | idx :: idxs' =>
      match uniform_choice H (firstn idx poten_edge_users) s with
      | Raise e => Raise e
      | Ok (selected_parent_node, s') =>
          match py_index poten_edge_users idx with
          | Raise e => Raise e
          | Ok current_node =>
              random_loop H poten_edge_users idxs'
                (edge_list ++ [(selected_parent_node, current_node)]) s'
          end
      end
  end.

Definition generate_random_reconstruction {user : Type} (H : int_generator)
    (poten_edge_users : list user) (s : int_state H)
  : result (list (user * user) * int_state H) :=
  match py_index poten_edge_users 0 with
  | Raise e => Raise e
  | Ok root =>
      match py_index poten_edge_users 1 with
      | Raise e => Raise e
      | Ok first_rt =>
          random_loop H poten_edge_users
            (range 2 (length poten_edge_users)) [(root, first_rt)] s
      end
  end.

(** A generator of integers that always draws the last index. *)
Definition last_index : int_generator :=
  {| int_state := nat;
     randint := fun n high => (Nat.pred high, S n);
     randint_range := fun _ high Hpos => ltac:(simpl; lia) |}.

(** ** The names of the output files *)

Module FileNames.

Import String Ascii.
Local Open Scope string_scope.

(** [str(n)] for a non-negative integer. *)
Definition py_str (n : nat) : string :=
  DecimalString.NilZero.string_of_uint (Nat.to_uint n).

Fixpoint zeros (n : nat) : string :=
  match n with
  | O => EmptyString
  | S n' => String "0" (zeros n')
  end.

(** [s.zfill(width)]: zeros are added on the left up to [width], after the
    sign when [s] starts with one. *)
Definition zfill (s : string) (width : nat) : string :=
  if (width <=? length s)%nat then s
  else
    let fill := zeros (width - length s) in
    match s with
    | String c rest =>
        if (Ascii.eqb c "+" || Ascii.eqb c "-")%bool
        then String c (fill ++ rest)
        else fill ++ s
    | EmptyString => fill
    end.

Definition startswith_sep (b : string) : bool :=
  match b with
  | String c _ => Ascii.eqb c "/"
  | EmptyString => false
  end.

Fixpoint endswith_sep (path : string) : bool :=
  match path with
  | EmptyString => false
  | String c EmptyString => Ascii.eqb c "/"
  | String _ rest => endswith_sep rest
  end.

(** [os.path.join(path, b)] on a POSIX system. *)
Definition os_path_join (path b : string) : string :=
  if startswith_sep b then b
  else if (length path =? 0)%nat || endswith_sep path then path ++ b
  else path ++ "/" ++ b.

(** [os.path.join(alpha_dir, cascade_id.zfill(5))]. *)
Definition cascade_dir (alpha_dir cascade_id : string) : string :=
  os_path_join alpha_dir (zfill cascade_id 5).

(** [os.path.join(cascade_dir, f"v_{str(vnum).zfill(3)}.gmlz")]. *)
Definition output_path_fname (cascade_dir : string) (vnum : nat) : string :=
  os_path_join cascade_dir ("v_" ++ zfill (py_str vnum) 3 ++ ".gmlz").

(** The number that a string of decimal digits stands for; leading zeros
    are allowed. *)
Definition digits_value (s : string) : option nat :=
  option_map Nat.of_uint (DecimalString.NilEmpty.uint_of_string s).

(** [s.replace(old, new)] for a pattern [old] that is not empty: the
    occurrences of [old] are replaced from left to right, without overlap.
    [skip] counts the characters of an occurrence still to be passed. *)
Fixpoint replace_from (old new : string) (skip : nat) (s : string) : string :=
  match s with
  | EmptyString => EmptyString
  | String c s' =>
      match skip with
      | S k => replace_from old new k s'
      | O =>
          if prefix old s
          then new ++ replace_from old new (length old - 1) s'
          else String c (replace_from old new 0 s')
      end
  end.

Definition py_replace (s old new : string) : string := replace_from old new 0 s.

(** The scheme and account prefix is deleted, then the collection segment
    becomes a dash. *)
Definition clean_uri_for_fname (uri : string) : string :=
  py_replace (py_replace uri "at://did:plc:" EmptyString)
    "/app.bsky.feed.post/" "-".

(** The string [s] holds no character [c]. *)
Fixpoint lacks (c : ascii) (s : string) : Prop :=
  match s with
  | EmptyString => True
  | String b s' => b <> c /\ lacks c s'
  end.

(** The URI of the record [rkey] of the account [did]. *)
Definition post_uri (did rkey : string) : string :=
  "at://did:plc:" ++ did ++ "/app.bsky.feed.post/" ++ rkey.

(** The files of the directory of a cascade once the versions [1, ..., k]
    have been written to it; writing to an existing path replaces the file. *)
Definition write_versions (cascade_dir : string) (listing : set string)
    (k : nat) : set string :=
  fold_left (fun files vnum =>
               set_add string_dec (output_path_fname cascade_dir vnum) files)
            (seq 1 k) listing.

(** The test that makes the main block skip a cascade:
    [os.path.exists(cascade_dir) and len(os.listdir(cascade_dir)) == 100]. *)
Definition already_reconstructed (dir_exists : bool) (listing : set string)
  : bool :=
  (dir_exists && (List.length listing =? 100)%nat)%bool.

End FileNames.

(** * Properties *)

(** ** Sums *)

Lemma fold_left_Rplus (l : list R) (a : R) :
  fold_left Rplus l a = a + np_sum l.
Proof.
  revert a; induction l as [|x l IH]; intros a; simpl.
  - lra.
  - rewrite IH; lra.
Qed.

Lemma py_sum_np_sum (l : list R) : py_sum l = np_sum l.
Proof. unfold py_sum; rewrite fold_left_Rplus; lra. Qed.

Lemma np_sum_nonneg (l : list R) : Forall (fun x => 0 <= x) l -> 0 <= np_sum l.
Proof. induction 1; simpl; lra. Qed.

Lemma np_sum_pos (l : list R) :
  l <> [] -> Forall (fun x => 0 < x) l -> 0 < np_sum l.
Proof.
  intros Hne H; destruct H as [|x l Hx Hl]; [congruence|].
  simpl. assert (0 <= np_sum l).
  { apply np_sum_nonneg. eapply Forall_impl; [|exact Hl]. simpl; intros; lra. }
  lra.
Qed.

Lemma np_sum_map_scale (c : R) (l : list R) :
  np_sum (map (fun x => c * x) l) = c * np_sum l.
Proof. induction l as [|x l IH]; simpl; [|rewrite IH]; lra. Qed.

Lemma np_sum_map_div (l : list R) (d : R) :
  np_sum (map (fun x => x / d) l) = np_sum l / d.
Proof.
  induction l as [|x l IH]; simpl.
  - unfold Rdiv; lra.
  - rewrite IH. unfold Rdiv; lra.
Qed.

Lemma np_sum_zip_plus (xs ys : list R) :
  length xs = length ys ->
  np_sum (zip_with Rplus xs ys) = np_sum xs + np_sum ys.
Proof.
  revert ys; induction xs as [|x xs IH]; intros [|y ys] Hlen; simpl in *;
    try discriminate; [lra|].
  rewrite IH by lia. lra.
Qed.

Lemma np_sum_repeat (d : R) (n : nat) : np_sum (repeat d n) = INR n * d.
Proof.
  induction n as [|n IH].
  - simpl; lra.
  - cbn [repeat np_sum fold_right]. fold (np_sum (repeat d n)).
    rewrite IH, S_INR; lra.
Qed.

(** ** Comprehensions *)

Lemma rmap_Forall2 {A B : Type} (f : A -> result B) (P : A -> B -> Prop)
    (l : list A) :
  (forall a, In a l -> exists b, f a = Ok b /\ P a b) ->
  exists bs, rmap f l = Ok bs /\ Forall2 P l bs.
Proof.
  induction l as [|a l IH]; intros H; simpl.
  - exists []; split; [reflexivity|constructor].
  - destruct (H a (or_introl eq_refl)) as [b [Hb Pb]].
    destruct IH as [bs [Hbs Pbs]]; [intros; apply H; right; assumption|].
    exists (b :: bs). rewrite Hb; simpl. rewrite Hbs; simpl.
    split; [reflexivity|constructor; assumption].
Qed.

Lemma rmap_inv {A B : Type} (f : A -> result B) (l : list A) (bs : list B) :
  rmap f l = Ok bs -> Forall2 (fun a b => f a = Ok b) l bs.
Proof.
  revert bs; induction l as [|a l IH]; intros bs H; simpl in H.
  - injection H as <-; constructor.
  - destruct (f a) as [b|e] eqn:Hb; simpl in H; [|discriminate].
    destruct (rmap f l) as [bs'|e] eqn:Hbs; simpl in H; [|discriminate].
    injection H as <-. constructor; [assumption|apply IH; reflexivity].
Qed.

Lemma rmap_length {A B : Type} (f : A -> result B) (l : list A) (bs : list B) :
  rmap f l = Ok bs -> length bs = length l.
Proof.
  intros H; apply rmap_inv in H. symmetry; eapply Forall2_length; eassumption.
Qed.

(** ** The integrand and the closed form *)

Lemma py_div_ok (a b : R) : b <> 0 -> py_div a b = Ok (a / b).
Proof. intros Hb; unfold py_div; destruct (Req_dec_T b 0); [contradiction|reflexivity]. Qed.

Lemma py_pow_pos (b e : R) : 0 < b -> e <> 0 -> py_pow b e = Ok (Rpower b e).
Proof.
  intros Hb He; unfold py_pow.
  destruct (Req_dec_T e 0); [contradiction|].
  destruct (Rlt_dec 0 b); [reflexivity|contradiction].
Qed.

Lemma power_law_integrand_ok (alpha xmin x : R) :
  1 < alpha -> 0 < xmin -> 0 < x ->
  power_law_integrand alpha xmin x = Ok (power_law_density alpha xmin x).
Proof.
  intros Ha Hm Hx; unfold power_law_integrand, power_law_density.
  rewrite py_div_ok by lra; simpl.
  rewrite py_div_ok by lra; simpl.
  rewrite py_pow_pos; [reflexivity| |lra].
  apply Rdiv_lt_0_compat; assumption.
Qed.

Lemma power_law_density_pos (alpha xmin x : R) :
  1 < alpha -> 0 < xmin -> 0 < power_law_density alpha xmin x.
Proof.
  intros Ha Hm; unfold power_law_density.
  apply Rmult_lt_0_compat.
  - apply Rdiv_lt_0_compat; lra.
  - unfold Rpower; apply exp_pos.
Qed.

(** The density decreases with the time gap. *)
Lemma power_law_density_decr (alpha xmin x y : R) :
  1 < alpha -> 0 < xmin -> 0 < x -> x <= y ->
  power_law_density alpha xmin y <= power_law_density alpha xmin x.
Proof.
  intros Ha Hm Hx Hxy; unfold power_law_density.
  apply Rmult_le_compat_l.
  - apply Rlt_le, Rdiv_lt_0_compat; lra.
  - apply Rle_Rpower_l; [lra|]. split.
    + apply Rdiv_lt_0_compat; lra.
    + unfold Rdiv. apply Rmult_le_compat_l; [lra|].
      apply Rinv_le_contravar; assumption.
Qed.

(** ** The quadrature *)

Lemma weighted_sum_bounds (lo hi : R) (nws : list (R * R)) (terms : list R) :
  Forall2 (fun nw t => lo * snd nw <= t <= hi * snd nw) nws terms ->
  lo * np_sum (map snd nws) <= np_sum terms <= hi * np_sum (map snd nws).
Proof. induction 1; simpl; lra. Qed.

(** A rule with positive weights of total 2 returns a value between the
    width of the interval times a lower bound of the integrand and the width
    times an upper bound. *)
Lemma quad_bounds (Q : quadrature) (f : R -> result R) (a b lo hi : R) :
  a <= b ->
  (forall x, a <= x <= b -> exists v, f x = Ok v /\ lo <= v <= hi) ->
  exists v, quad Q f a b = Ok (v, abserr Q f a b)
            /\ (b - a) * lo <= v <= (b - a) * hi.
Proof.
  intros Hab Hf. unfold quad.
  destruct (rmap_Forall2
              (fun nw => (fx <- f ((a + b) / 2 + (b - a) / 2 * fst nw) ;;
                          Ok (snd nw * fx))%result)
              (fun nw t => lo * snd nw <= t <= hi * snd nw) (rule Q))
    as [terms [Hterms Hbounds]].
  - intros [x w] Hin; simpl.
    pose proof (proj1 (Forall_forall _ _) (rule_nodes Q) _ Hin) as Hx.
    pose proof (proj1 (Forall_forall _ _) (rule_weights Q) _ Hin) as Hw.
    simpl in Hx, Hw.
    destruct (Hf ((a + b) / 2 + (b - a) / 2 * x)) as [v [Hv Hlohi]].
    { split; nra. }
    exists (w * v). rewrite Hv; simpl. split; [reflexivity|nra].
  - rewrite Hterms; simpl. eexists; split; [reflexivity|].
    apply weighted_sum_bounds in Hbounds. rewrite (rule_total Q) in Hbounds.
    nra.
Qed.

(** ** [power_law] on a window of positive numbers *)

Lemma epsilon_pos : 0 < epsilon.
Proof. unfold epsilon; lra. Qed.

Lemma power_law_bracket (Q : quadrature) (z alpha xmin : R) :
  1 < alpha -> 0 < xmin -> epsilon < z ->
  exists v, power_law Q z alpha xmin
            = Ok (v, abserr Q (power_law_integrand alpha xmin)
                       (z - epsilon) (z + epsilon))
            /\ 2 * epsilon * power_law_density alpha xmin (z + epsilon) <= v
            /\ v <= 2 * epsilon * power_law_density alpha xmin (z - epsilon).
Proof.
  intros Ha Hm Hz. pose proof epsilon_pos as He. unfold power_law.
  destruct (quad_bounds Q (power_law_integrand alpha xmin)
              (z - epsilon) (z + epsilon)
              (power_law_density alpha xmin (z + epsilon))
              (power_law_density alpha xmin (z - epsilon)))
    as [v [Hv Hb]].
  - lra.
  - intros x Hx. exists (power_law_density alpha xmin x). split.
    + apply power_law_integrand_ok; lra.
    + split; apply power_law_density_decr; lra.
  - exists v. split; [exact Hv|]. split; lra.
Qed.

Lemma power_law_pos (Q : quadrature) (z alpha xmin : R) :
  1 < alpha -> 0 < xmin -> epsilon < z ->
  exists v e, power_law Q z alpha xmin = Ok (v, e) /\ 0 < v.
Proof.
  intros Ha Hm Hz.
  destruct (power_law_bracket Q z alpha xmin Ha Hm Hz) as [v [Hv [Hlo _]]].
  exists v; eexists; split; [exact Hv|].
  pose proof (power_law_density_pos alpha xmin (z + epsilon) Ha Hm).
  pose proof epsilon_pos. nra.
Qed.

(** ** Arrays of finite numbers *)

Lemma np_true_divide_Fin (a b : R) : b <> 0 -> np_true_divide a b = Fin (a / b).
Proof.
  intros Hb; unfold np_true_divide.
  destruct (Req_dec_T b 0); [contradiction|reflexivity].
Qed.

Lemma np_true_divide_zero_zero : np_true_divide 0 0 = NaN.
Proof.
  unfold np_true_divide.
  destruct (Req_dec_T 0 0) as [_|H]; [reflexivity|contradiction H; reflexivity].
Qed.

Lemma np_scalar_mul_Fin (c : R) (l : list R) :
  np_scalar_mul c (map Fin l) = map Fin (map (fun x => c * x) l).
Proof. unfold np_scalar_mul; rewrite !map_map; reflexivity. Qed.

Lemma zip_with_Fin (xs ys : list R) :
  zip_with np_add (map Fin xs) (map Fin ys) = map Fin (zip_with Rplus xs ys).
Proof.
  revert ys; induction xs as [|x xs IH]; intros [|y ys]; simpl;
    try reflexivity.
  rewrite IH; reflexivity.
Qed.

Lemma np_array_add_Fin (xs ys : list R) :
  length xs = length ys ->
  np_array_add (map Fin xs) (map Fin ys) = Ok (map Fin (zip_with Rplus xs ys)).
Proof.
  intros Hlen; unfold np_array_add.
  rewrite !length_map, Hlen, Nat.eqb_refl, zip_with_Fin; reflexivity.
Qed.

Lemma finite_values_Fin (l : list R) : finite_values (map Fin l) = Some l.
Proof. induction l as [|x l IH]; simpl; [|rewrite IH]; reflexivity. Qed.

Lemma finite_values_inv (p : list npfloat) (ps : list R) :
  finite_values p = Some ps -> p = map Fin ps.
Proof.
  revert ps; induction p as [|x p IH]; intros ps H; simpl in H.
  - injection H as <-; reflexivity.
  - destruct x; try discriminate.
    destruct (finite_values p) as [rs|]; [|discriminate].
    injection H as <-. simpl; rewrite (IH rs eq_refl); reflexivity.
Qed.

Lemma zip_with_length {A B C : Type} (f : A -> B -> C) (xs : list A)
    (ys : list B) :
  length xs = length ys -> length (zip_with f xs ys) = length xs.
Proof.
  revert ys; induction xs as [|x xs IH]; intros [|y ys] H; simpl in *;
    try discriminate; [reflexivity|].
  rewrite IH by lia; reflexivity.
Qed.

(** ** The exact distributions *)

Lemma p_audience_length (fc : list R) : length (p_audience fc) = length fc.
Proof. unfold p_audience; apply length_map. Qed.

Lemma p_time_length (ds : list R) : length (p_time ds) = length ds.
Proof. unfold p_time; apply length_map. Qed.

Lemma p_final_length (gamma : R) (pa pt : list R) :
  length pa = length pt -> length (p_final gamma pa pt) = length pa.
Proof.
  intros H; unfold p_final. rewrite zip_with_length; rewrite !length_map; auto.
Qed.

Lemma normalised_sum (l : list R) :
  np_sum l <> 0 -> np_sum (map (fun x => x / np_sum l) l) = 1.
Proof. intros H; rewrite np_sum_map_div; field; assumption. Qed.

Lemma normalised_nonneg (l : list R) :
  Forall (fun x => 0 <= x) l -> 0 < np_sum l ->
  Forall (fun x => 0 <= x) (map (fun x => x / np_sum l) l).
Proof.
  intros Hl Hs. apply Forall_map. eapply Forall_impl; [|exact Hl].
  simpl; intros x Hx. apply Rmult_le_pos; [assumption|].
  apply Rlt_le, Rinv_0_lt_compat; assumption.
Qed.

Lemma p_final_sum (gamma : R) (pa pt : list R) :
  length pa = length pt ->
  np_sum (p_final gamma pa pt) = gamma * np_sum pa + (1 - gamma) * np_sum pt.
Proof.
  intros H; unfold p_final.
  rewrite np_sum_zip_plus by (rewrite !length_map; assumption).
  rewrite !np_sum_map_scale; reflexivity.
Qed.

Lemma p_final_nonneg (gamma : R) (pa pt : list R) :
  0 <= gamma <= 1 ->
  Forall (fun x => 0 <= x) pa -> Forall (fun x => 0 <= x) pt ->
  Forall (fun x => 0 <= x) (p_final gamma pa pt).
Proof.
  intros Hg Hpa; revert pt; unfold p_final.
  induction Hpa as [|a pa Ha Hpa IH]; intros pt Hpt; simpl; [constructor|].
  destruct Hpt as [|t pt Ht Hpt]; simpl; constructor.
  - nra.
  - apply IH; assumption.
Qed.

Arguments choice {user} G a p s.
Arguments get_who_rtd_whom {user} Q G _ _ _ _ _ _ _ s.
Arguments entire_cascade_reconstruction {user} Q G _ _ _ _ _ _ s.
Arguments reconstruction_step {user} Q G _ _ _ _ _ _ _ _ s.
Arguments reconstruct {user} Q G _ _ _ _ s.
Arguments edge_lists {user} Q G _ _ _ _.
Arguments for_each {user} G _ _ _ s.
Arguments child_once {user} _ _.
Arguments edge_rel {user} _ _ _.
Arguments reaches {user} _ _ _.
Arguments rooted_tree {user} _ _ _.
Arguments edge_shape {user} _ _.
Arguments engine_call {user} Q G _ _ _ _ _ _ _ _ s.
Arguments loop_trace {user} Q G _ _ _ _ _ _ _ _ s s' _.

(** ** The sampler *)

Lemma cumsum_length (acc : R) (p : list R) : length (cumsum acc p) = length p.
Proof.
  revert acc; induction p as [|x p IH]; intros acc; simpl;
    [|rewrite IH]; reflexivity.
Qed.

Lemma cumsum_last (acc d : R) (p : list R) :
  p <> [] -> last (cumsum acc p) d = acc + np_sum p.
Proof.
  revert acc; induction p as [|x p IH]; intros acc Hne; [congruence|].
  destruct p as [|y p].
  - simpl; lra.
  - change (last (cumsum (acc + x) (y :: p)) d = acc + (x + np_sum (y :: p))).
    rewrite IH by discriminate. lra.
Qed.

Lemma last_map_default {A B : Type} (f : A -> B) (l : list A) (d : A) (d' : B) :
  l <> [] -> last (map f l) d' = f (last l d).
Proof.
  induction l as [|x l IH]; intros Hne; [congruence|].
  destruct l as [|y l]; [reflexivity|].
  change (last (map f (y :: l)) d' = f (last (y :: l) d)).
  apply IH; discriminate.
Qed.

Lemma searchsorted_right_lt (cdf : list R) (u d : R) :
  cdf <> [] -> u < last cdf d -> (searchsorted_right cdf u < length cdf)%nat.
Proof.
  induction cdf as [|c cdf IH]; intros Hne Hu; [congruence|].
  simpl. destruct (Rlt_dec u c) as [_|Hc]; [lia|].
  destruct cdf as [|c' cdf]; [simpl in Hu; contradiction|].
  apply -> Nat.succ_lt_mono. apply IH; [discriminate|exact Hu].
Qed.

Lemma has_negative_false (p : list R) :
  has_negative p = false <-> Forall (fun x => 0 <= x) p.
Proof.
  unfold has_negative; induction p as [|x p IH]; simpl.
  - split; [constructor|reflexivity].
  - destruct (Rlt_dec x 0) as [Hx|Hx]; simpl.
    + split; [discriminate|]. intros H; inversion H; subst; lra.
    + rewrite IH. split.
      * intros H; constructor; [lra|assumption].
      * intros H; inversion H; assumption.
Qed.

Lemma has_negative_true (p : list R) :
  has_negative p = true <-> Exists (fun x => x < 0) p.
Proof.
  unfold has_negative; induction p as [|x p IH]; simpl.
  - split; [discriminate|intros H; inversion H].
  - destruct (Rlt_dec x 0) as [Hx|Hx]; simpl.
    + split; [intros _; left; assumption|reflexivity].
    + rewrite IH. split.
      * intros H; right; assumption.
      * intros H; inversion H; [contradiction|assumption].
Qed.

Lemma atol_bounds : 0 < atol < 1.
Proof. unfold atol; lra. Qed.

Section Sampler.

Variable user : Type.
Variable G : generator.

(** Whatever [choice] returns is an element of the population, and one
    sample has been drawn. *)
Lemma choice_inv (a : list user) (p : list npfloat) (s s' : state G) (x : user) :
  choice G a p s = Ok (x, s') ->
  In x a /\ s' = snd (random_sample G s)
  /\ exists ps, p = map Fin ps /\ length ps = length a
                /\ Forall (fun x => 0 <= x) ps
                /\ Rabs (np_sum ps - 1) <= atol.
Proof.
  unfold choice.
  destruct (length a =? 0)%nat; [discriminate|].
  destruct (length p =? length a)%nat eqn:Hlen; simpl; [|discriminate].
  destruct (finite_values p) as [ps|] eqn:Hfin; [|discriminate].
  destruct (has_negative ps) eqn:Hneg; [discriminate|].
  destruct (Rlt_dec atol (Rabs (np_sum ps - 1))) as [|Hsum]; [discriminate|].
  destruct (random_sample G s) as [u s1] eqn:Hu.
  destruct (nth_error a _) as [y|] eqn:Hnth; [|discriminate].
  intros H; injection H as <- <-.
  split; [eapply nth_error_In; eassumption|].
  split; [reflexivity|].
  exists ps. apply finite_values_inv in Hfin. subst p.
  rewrite length_map in Hlen. apply Nat.eqb_eq in Hlen.
  repeat split; [assumption|apply has_negative_false; assumption|lra].
Qed.

(** A probability vector that passes the check makes [choice] return. *)
Lemma choice_ok (a : list user) (ps : list R) (s : state G) :
  a <> [] -> length ps = length a ->
  Forall (fun x => 0 <= x) ps -> Rabs (np_sum ps - 1) <= atol ->
  exists x, choice G a (map Fin ps) s = Ok (x, snd (random_sample G s))
            /\ In x a.
Proof.
  intros Hne Hlen Hpos Hsum. unfold choice.
  destruct a as [|a0 a']; [congruence|].
  change (length (a0 :: a') =? 0)%nat with false.
  rewrite length_map, Hlen, Nat.eqb_refl; simpl negb.
  rewrite finite_values_Fin.
  rewrite (proj2 (has_negative_false ps) Hpos).
  destruct (Rlt_dec atol (Rabs (np_sum ps - 1))) as [Hbad|_]; [lra|].
  pose proof (random_sample_range G s) as Hu.
  destruct (random_sample G s) as [u s1]; simpl in Hu |- *.
  assert (Hps : ps <> []) by (destruct ps; [discriminate|discriminate]).
  pose proof atol_bounds as Hat.
  assert (Hs0 : 0 < np_sum ps).
  { destruct (Rcase_abs (np_sum ps - 1)) as [Hc|Hc].
    - rewrite (Rabs_left _ Hc) in Hsum; lra.
    - rewrite (Rabs_right _ Hc) in Hsum; lra. }
  set (cdf := map (fun c => c / last (cumsum 0 ps) 0) (cumsum 0 ps)).
  assert (Hidx : (searchsorted_right cdf u < length (a0 :: a'))%nat).
  { rewrite <- Hlen, <- (cumsum_length 0 ps).
    rewrite <- (length_map (fun c => c / last (cumsum 0 ps) 0)).
    apply searchsorted_right_lt with (d := 0 / last (cumsum 0 ps) 0).
    - unfold cdf. destruct ps; [congruence|discriminate].
    - unfold cdf.
      rewrite (last_map_default (fun c => c / last (cumsum 0 ps) 0) _ 0).
      + rewrite cumsum_last by assumption.
        replace ((0 + np_sum ps) / (0 + np_sum ps)) with 1 by (field; lra).
        lra.
      + destruct ps; [congruence|discriminate]. }
  destruct (nth_error (a0 :: a') (searchsorted_right cdf u)) as [x|] eqn:Hx.
  - exists x; split; [reflexivity|]. exact (nth_error_In _ _ Hx).
  - apply nth_error_None in Hx. lia.
Qed.

(** A finite vector of the right length with a negative entry is refused. *)
Lemma choice_negative (a : list user) (ps : list R) (s : state G) :
  Exists (fun x => x < 0) ps ->
  choice G a (map Fin ps) s = Raise ValueError.
Proof.
  intros Hneg; unfold choice.
  destruct (length a =? 0)%nat; [reflexivity|].
  destruct (negb _); [reflexivity|].
  rewrite finite_values_Fin.
  rewrite (proj2 (has_negative_true ps) Hneg). reflexivity.
Qed.

(** An array with an entry that is not finite is refused. *)
Lemma choice_not_finite (a : list user) (p : list npfloat) (s : state G) :
  finite_values p = None -> choice G a p s = Raise ValueError.
Proof.
  intros Hfin; unfold choice.
  destruct (length a =? 0)%nat; [reflexivity|].
  destruct (negb _); [reflexivity|].
  rewrite Hfin; reflexivity.
Qed.

End Sampler.

(** ** The time-decay branch *)

Lemma shifted_gap_window (curr t : Z) :
  (t <= curr)%Z -> 1 / 10 <= IZR (curr - t) + 1 / 10
                   /\ 0 < IZR (curr - t) + 1 / 10 - epsilon.
Proof.
  intros H. assert (0 <= IZR (curr - t)) by (apply IZR_le; lia).
  unfold epsilon; lra.
Qed.

Section Engine.

Variable user : Type.
Variable Q : quadrature.
Variable G : generator.

Lemma tdiff_probs_length (curr : Z) (tstamps : list Z) (alpha xmin : R)
    (ds : list R) :
  tdiff_probs Q curr tstamps alpha xmin = Ok ds -> length ds = length tstamps.
Proof.
  unfold tdiff_probs, time_diffs; intros H.
  apply rmap_length in H. rewrite length_map in H; exact H.
Qed.

(** With candidates that are not later than the current event, every density
    is computed and is positive. *)
Lemma tdiff_probs_ok (curr : Z) (tstamps : list Z) (alpha xmin : R) :
  1 < alpha -> 0 < xmin -> Forall (fun t => (t <= curr)%Z) tstamps ->
  exists ds, tdiff_probs Q curr tstamps alpha xmin = Ok ds
             /\ Forall (fun d => 0 < d) ds
             /\ length ds = length tstamps.
Proof.
  intros Ha Hm Hts. unfold tdiff_probs.
  destruct (rmap_Forall2
              (fun tdiff => (r <- power_law Q (IZR tdiff + 1 / 10) alpha xmin ;;
                             Ok (fst r))%result)
              (fun _ d => 0 < d) (time_diffs curr tstamps)) as [ds [Hds HP]].
  - intros g Hg. unfold time_diffs in Hg. apply in_map_iff in Hg.
    destruct Hg as [t [<- Ht]].
    pose proof (proj1 (Forall_forall _ _) Hts t Ht) as Hle.
    destruct (shifted_gap_window curr t Hle) as [_ Hwin].
    destruct (power_law_pos Q (IZR (curr - t) + 1 / 10) alpha xmin Ha Hm)
      as [v [e [Hv Hpos]]]; [lra|].
    exists v. rewrite Hv; simpl. split; [reflexivity|assumption].
  - exists ds. split; [exact Hds|]. split.
    + clear Hds. induction HP; constructor; assumption.
    + apply Forall2_length in HP. unfold time_diffs in HP.
      rewrite length_map in HP. symmetry; exact HP.
Qed.

Lemma norm_tstamp_prob_array_Fin (curr : Z) (tstamps : list Z) (alpha xmin : R)
    (ds : list R) :
  tdiff_probs Q curr tstamps alpha xmin = Ok ds -> np_sum ds <> 0 ->
  norm_tstamp_prob_array Q curr tstamps alpha xmin = Ok (map Fin (p_time ds)).
Proof.
  intros Hds Hsum. unfold norm_tstamp_prob_array. rewrite Hds; simpl.
  unfold p_time. rewrite map_map. f_equal. apply map_ext.
  intros d. apply np_true_divide_Fin; assumption.
Qed.

Lemma fcount_probabilities_Fin (fcounts : list R) :
  np_sum fcounts <> 0 ->
  fcount_probabilities fcounts = map Fin (p_audience fcounts).
Proof.
  intros Hsum. unfold fcount_probabilities, p_audience.
  rewrite map_map, py_sum_np_sum. apply map_ext.
  intros f. apply np_true_divide_Fin; assumption.
Qed.

(** When neither normalisation divides by zero, the vector handed to the
    sampler is the combination of the two exact distributions, whatever
    [gamma] is. *)
Lemma indiv_probs_Fin (tstamps : list Z) (fcounts : list R) (curr : Z)
    (gamma alpha xmin : R) (ds : list R) :
  length fcounts = length tstamps ->
  tdiff_probs Q curr tstamps alpha xmin = Ok ds ->
  np_sum ds <> 0 -> np_sum fcounts <> 0 ->
  indiv_probs Q tstamps fcounts curr gamma alpha xmin
  = Ok (map Fin (p_final gamma (p_audience fcounts) (p_time ds))).
Proof.
  intros Hlen Hds Hd Hf. unfold indiv_probs.
  rewrite (norm_tstamp_prob_array_Fin _ _ _ _ _ Hds Hd); simpl.
  rewrite (fcount_probabilities_Fin _ Hf).
  rewrite !np_scalar_mul_Fin. unfold p_final.
  apply np_array_add_Fin.
  rewrite !length_map, p_audience_length, p_time_length.
  rewrite (tdiff_probs_length _ _ _ _ _ Hds). exact Hlen.
Qed.

(** The parent returned is one of the candidates. *)
Lemma get_who_rtd_whom_inv (users : list user) (tstamps : list Z)
    (fcounts : list R) (curr : Z) (gamma alpha xmin : R)
    (s s' : state G) (p : user) :
  get_who_rtd_whom Q G users tstamps fcounts curr gamma alpha xmin s
  = Ok (p, s') ->
  In p users.
Proof.
  unfold get_who_rtd_whom, bind, lift.
  destruct (indiv_probs Q tstamps fcounts curr gamma alpha xmin) as [v|e];
    [|discriminate].
  intros H. apply choice_inv in H. tauto.
Qed.

(** On well-formed input the engine returns. *)
Lemma get_who_rtd_whom_ok (users : list user) (tstamps : list Z)
    (fcounts : list R) (curr : Z) (gamma alpha xmin : R) (s : state G) :
  users <> [] ->
  length tstamps = length users -> length fcounts = length users ->
  Forall (fun t => (t <= curr)%Z) tstamps ->
  Forall (fun f => 0 <= f) fcounts -> 0 < np_sum fcounts ->
  0 <= gamma <= 1 -> 1 < alpha -> 0 < xmin ->
  exists p,
    get_who_rtd_whom Q G users tstamps fcounts curr gamma alpha xmin s
    = Ok (p, snd (random_sample G s))
    /\ In p users.
Proof.
  intros Hne Hlt Hlf Hts Hfc Hsum Hg Ha Hm.
  destruct (tdiff_probs_ok curr tstamps alpha xmin Ha Hm Hts)
    as [ds [Hds [Hpos Hlen]]].
  assert (Hdne : ds <> []).
  { destruct ds; [|discriminate]. destruct users; [congruence|].
    simpl in *; lia. }
  pose proof (np_sum_pos ds Hdne Hpos) as Hdsum.
  unfold get_who_rtd_whom, bind, lift.
  rewrite (indiv_probs_Fin tstamps fcounts curr gamma alpha xmin ds)
    by (try assumption; try lra; lia).
  apply choice_ok.
  - assumption.
  - rewrite p_final_length; rewrite p_audience_length, ?p_time_length; lia.
  - apply p_final_nonneg; [assumption| |].
    + apply normalised_nonneg; assumption.
    + apply normalised_nonneg; [|assumption].
      eapply Forall_impl; [|exact Hpos]. simpl; intros; lra.
  - rewrite p_final_sum by (rewrite p_audience_length, p_time_length; lia).
    unfold p_audience, p_time. rewrite !normalised_sum by lra.
    replace (gamma * 1 + (1 - gamma) * 1 - 1) with 0 by lra.
    rewrite Rabs_R0. pose proof atol_bounds; lra.
Qed.

End Engine.

(** ** The loop of the driver *)

Section Driver.

Variable user : Type.
Variable Q : quadrature.
Variable G : generator.

Variables (users : list user) (tstamps : list Z) (fcounts : list R).
Variables (gamma alpha xmin : R).

Local Abbreviation engine_call :=
  (engine_call Q G users tstamps fcounts gamma alpha xmin).
Local Abbreviation loop_trace :=
  (loop_trace Q G users tstamps fcounts gamma alpha xmin).

Lemma reconstruction_step_inv (edge_list edge_list' : list (edge user))
    (idx : nat) (s s' : state G) :
  reconstruction_step Q G users tstamps fcounts gamma alpha xmin
    edge_list idx s = Ok (edge_list', s') ->
  exists ts u p,
    nth_error tstamps idx = Some ts /\ nth_error users idx = Some u
    /\ engine_call idx ts s = Ok (p, s')
    /\ edge_list' = edge_list ++ [(p, u)].
Proof.
  unfold reconstruction_step, engine_call, bind, lift, py_index, ret.
  destruct (nth_error tstamps idx) as [ts|]; [|discriminate].
  destruct (nth_error users idx) as [u|]; [|discriminate].
  destruct (get_who_rtd_whom Q G _ _ _ ts gamma alpha xmin s) as [[p s1]|e]
    eqn:Hp; [|discriminate].
  intros H; injection H as <- <-.
  exists ts, u, p. repeat split; try reflexivity. exact Hp.
Qed.

Lemma reconstruction_step_ok (edge_list : list (edge user)) (idx : nat)
    (s s' : state G) (ts : Z) (u p : user) :
  nth_error tstamps idx = Some ts -> nth_error users idx = Some u ->
  engine_call idx ts s = Ok (p, s') ->
  reconstruction_step Q G users tstamps fcounts gamma alpha xmin
    edge_list idx s = Ok (edge_list ++ [(p, u)], s').
Proof.
  intros Hts Hu Hp.
  unfold reconstruction_step, bind, lift, py_index, ret.
  rewrite Hts, Hu. unfold engine_call in Hp. rewrite Hp. reflexivity.
Qed.

Lemma for_each_inv (len start : nat) (edge_list edge_list' : list (edge user))
    (s s' : state G) :
  for_each G (reconstruction_step Q G users tstamps fcounts gamma alpha xmin)
    (seq start len) edge_list s = Ok (edge_list', s') ->
  exists new_edges,
    edge_list' = edge_list ++ new_edges /\ loop_trace start len s s' new_edges.
Proof.
  revert start edge_list s.
  induction len as [|len IH]; intros start edge_list s H; simpl in H.
  - unfold ret in H; injection H as <- <-.
    exists []. split; [symmetry; apply app_nil_r|].
    split; [reflexivity|]. exists (fun _ => s).
    split; [reflexivity|]. split; [reflexivity|]. intros i Hi; lia.
  - unfold bind in H.
    destruct (reconstruction_step Q G users tstamps fcounts gamma alpha xmin
                edge_list start s) as [[el1 s1]|e] eqn:Hstep; [|discriminate].
    apply reconstruction_step_inv in Hstep.
    destruct Hstep as [ts [u [p [Hts [Hu [Hp ->]]]]]].
    apply IH in H. destruct H as [rest [-> [Hlen [st [Hst0 [Hst1 Hall]]]]]].
    exists ((p, u) :: rest). split; [rewrite <- app_assoc; reflexivity|].
    split; [simpl; rewrite Hlen; reflexivity|].
    exists (fun i => if (i <=? start)%nat then s else st i).
    split; [rewrite Nat.leb_refl; reflexivity|]. split.
    + destruct (start + S len <=? start)%nat eqn:E;
        [apply Nat.leb_le in E; lia|].
      rewrite <- Hst1. f_equal; lia.
    + intros i Hi. destruct (Nat.eq_dec i start) as [->|Hne].
      * exists ts, u, p. rewrite Nat.leb_refl.
        destruct (S start <=? start)%nat eqn:E;
          [apply Nat.leb_le in E; lia|].
        rewrite Hst0, Nat.sub_diag. repeat split; assumption.
      * destruct (Hall i) as [ts' [u' [p' [Hts' [Hu' [Hp' Hnth]]]]]]; [lia|].
        exists ts', u', p'.
        destruct (i <=? start)%nat eqn:E; [apply Nat.leb_le in E; lia|].
        destruct (S i <=? start)%nat eqn:E'; [apply Nat.leb_le in E'; lia|].
        repeat split; try assumption.
        replace (i - start)%nat with (S (i - S start)) by lia. exact Hnth.
Qed.

(** The loop returns as soon as every call of the engine in its range does. *)
Lemma for_each_total (len start : nat) (edge_list : list (edge user))
    (s : state G) :
  (start + len <= length tstamps)%nat -> (start + len <= length users)%nat ->
  (forall i ts s0, (start <= i < start + len)%nat ->
     nth_error tstamps i = Some ts ->
     exists p s1, engine_call i ts s0 = Ok (p, s1)) ->
  exists edge_list' s',
    for_each G (reconstruction_step Q G users tstamps fcounts gamma alpha xmin)
      (seq start len) edge_list s = Ok (edge_list', s').
Proof.
  revert start edge_list s.
  induction len as [|len IH]; intros start edge_list s Ht Hu Hall; simpl.
  - exists edge_list, s; reflexivity.
  - destruct (nth_error tstamps start) as [ts|] eqn:Hts;
      [|apply nth_error_None in Hts; lia].
    destruct (nth_error users start) as [u|] eqn:Hus;
      [|apply nth_error_None in Hus; lia].
    destruct (Hall start ts s) as [p [s1 Hp]]; [lia|assumption|].
    unfold bind.
    rewrite (reconstruction_step_ok edge_list start s s1 ts u p Hts Hus Hp).
    apply IH; [lia|lia|].
    intros i ts' s0 Hi Hts'. apply Hall; [lia|assumption].
Qed.

(** The whole run, in terms of the loop. *)
Lemma entire_cascade_reconstruction_inv (edge_list : list (edge user))
    (s s' : state G) :
  entire_cascade_reconstruction Q G users tstamps fcounts gamma alpha xmin s
  = Ok (edge_list, s') ->
  exists root first_rt new_edges,
    nth_error users 0 = Some root /\ nth_error users 1 = Some first_rt
    /\ edge_list = (root, first_rt) :: new_edges
    /\ loop_trace 2 (length tstamps - 2) s s' new_edges.
Proof.
  unfold entire_cascade_reconstruction, bind, lift, py_index, range.
  destruct (nth_error users 0) as [root|]; [|discriminate].
  destruct (nth_error users 1) as [first_rt|]; [|discriminate].
  intros H. apply for_each_inv in H. destruct H as [new_edges [-> Htrace]].
  exists root, first_rt, new_edges. repeat split; try reflexivity; apply Htrace.
Qed.

End Driver.

(** ** Prefixes of a sorted cascade *)

Lemma sorted_prefix_le (l : list Z) (i : nat) (x : Z) :
  StronglySorted Z.le l -> nth_error l i = Some x ->
  Forall (fun t => (t <= x)%Z) (firstn i l).
Proof.
  intros Hs; revert i; induction Hs as [|a l Hs IH Ha]; intros i Hi.
  - destruct i; constructor.
  - destruct i as [|i]; simpl in *; [constructor|].
    constructor.
    + apply nth_error_In in Hi.
      exact (proj1 (Forall_forall _ _) Ha x Hi).
    + apply IH; assumption.
Qed.

Lemma firstn_Forall {A : Type} (P : A -> Prop) (l : list A) (n : nat) :
  Forall P l -> Forall P (firstn n l).
Proof.
  intros H; revert n; induction H as [|a l Ha Hl IH]; intros [|n]; simpl;
    constructor; auto.
Qed.

Lemma np_sum_firstn_le (l : list R) (n m : nat) :
  Forall (fun x => 0 <= x) l -> (n <= m)%nat ->
  np_sum (firstn n l) <= np_sum (firstn m l).
Proof.
  intros H; revert n m; induction H as [|a l Ha Hl IH]; intros n m Hnm.
  - rewrite !firstn_nil; lra.
  - destruct n as [|n]; destruct m as [|m]; simpl; try lra; try lia.
    + pose proof (np_sum_nonneg (firstn m l) (firstn_Forall _ _ m Hl)). lra.
    + pose proof (IH n m ltac:(lia)). lra.
Qed.

(** ** A candidate set without audience *)

Lemma zip_with_NaN_l (xs ys : list npfloat) :
  Forall (fun x => x = NaN) xs ->
  Forall (fun x => x = NaN) (zip_with np_add xs ys).
Proof.
  intros H; revert ys; induction H as [|x xs Hx Hxs IH]; intros [|y ys];
    simpl; constructor; [subst x; reflexivity|apply IH].
Qed.

Lemma finite_values_NaN (p : list npfloat) :
  p <> [] -> Forall (fun x => x = NaN) p -> finite_values p = None.
Proof.
  intros Hne H; destruct H as [|x p Hx _]; [congruence|].
  subst x; reflexivity.
Qed.

Lemma fcount_probabilities_zero (fcounts : list R) :
  Forall (fun f => f = 0) fcounts ->
  Forall (fun x => x = NaN) (fcount_probabilities fcounts).
Proof.
  intros H. unfold fcount_probabilities.
  assert (Hsum : py_sum fcounts = 0).
  { rewrite py_sum_np_sum. induction H as [|f l Hf Hl IH]; simpl; [|subst f];
      lra. }
  rewrite Hsum. apply Forall_map. eapply Forall_impl; [|exact H].
  simpl; intros f ->. apply np_true_divide_zero_zero.
Qed.

Section ZeroAudience.

Variable user : Type.
Variable Q : quadrature.
Variable G : generator.

(** When every candidate has audience 0 the vector handed to the sampler
    holds nothing but [nan]. *)
Lemma indiv_probs_zero_audience (tstamps : list Z) (fcounts : list R)
    (curr : Z) (gamma alpha xmin : R) :
  length fcounts = length tstamps ->
  Forall (fun f => f = 0) fcounts ->
  1 < alpha -> 0 < xmin -> Forall (fun t => (t <= curr)%Z) tstamps ->
  exists p, indiv_probs Q tstamps fcounts curr gamma alpha xmin = Ok p
            /\ length p = length fcounts
            /\ Forall (fun x => x = NaN) p.
Proof.
  intros Hlen Hz Ha Hm Hts.
  destruct (tdiff_probs_ok Q curr tstamps alpha xmin Ha Hm Hts)
    as [ds [Hds [_ Hdl]]].
  unfold indiv_probs, norm_tstamp_prob_array. rewrite Hds; simpl.
  unfold np_array_add, np_scalar_mul. rewrite !length_map.
  unfold fcount_probabilities at 1. rewrite length_map.
  replace (length fcounts =? length ds)%nat with true
    by (symmetry; apply Nat.eqb_eq; lia).
  eexists; split; [reflexivity|]. split.
  - rewrite zip_with_length; rewrite !length_map;
      unfold fcount_probabilities; rewrite ?length_map; lia.
  - apply zip_with_NaN_l. apply Forall_map.
    eapply Forall_impl; [|apply fcount_probabilities_zero; exact Hz].
    simpl; intros x ->; reflexivity.
Qed.

(** The sampler then refuses the vector. *)
Lemma get_who_rtd_whom_zero_audience (users : list user) (tstamps : list Z)
    (fcounts : list R) (curr : Z) (gamma alpha xmin : R) (s : state G) :
  fcounts <> [] -> length fcounts = length tstamps ->
  Forall (fun f => f = 0) fcounts ->
  1 < alpha -> 0 < xmin -> Forall (fun t => (t <= curr)%Z) tstamps ->
  get_who_rtd_whom Q G users tstamps fcounts curr gamma alpha xmin s
  = Raise ValueError.
Proof.
  intros Hne Hlen Hz Ha Hm Hts.
  destruct (indiv_probs_zero_audience tstamps fcounts curr gamma alpha xmin
              Hlen Hz Ha Hm Hts) as [p [Hp [Hpl Hnan]]].
  unfold get_who_rtd_whom, bind, lift. rewrite Hp.
  apply choice_not_finite. apply finite_values_NaN; [|assumption].
  destruct p; [|discriminate]. destruct fcounts; [congruence|discriminate].
Qed.

End ZeroAudience.

(** * The claims *)

Section DriverClaims.

Variable user : Type.
Variable Q : quadrature.
Variable G : generator.

(** ** The driver *)

(** On a sorted cascade whose audience sizes are non-negative, with a
    positive total over the first two events, every call of the engine made
    by the driver returns. *)
Lemma engine_call_ok (cascade_frame : list (tweet user))
    (gamma alpha xmin : R) (i : nat) (ts : Z) (s0 : state G) :
  StronglySorted Z.le (map tweet_date cascade_frame) ->
  Forall (fun tw => 0 <= user_followers tw) cascade_frame ->
  0 < np_sum (map user_followers (firstn 2 cascade_frame)) ->
  0 <= gamma <= 1 -> 1 < alpha -> 0 < xmin ->
  (2 <= i)%nat -> nth_error (map tweet_date cascade_frame) i = Some ts ->
  exists p s1,
    engine_call Q G (map tid cascade_frame) (map tweet_date cascade_frame)
      (map user_followers cascade_frame) gamma alpha xmin i ts s0
    = Ok (p, s1).
Proof.
  intros Hsorted Hfc Hsum Hg Ha Hm Hi Hts.
  assert (Hlen : (i < length cascade_frame)%nat).
  { rewrite <- (length_map tweet_date). apply nth_error_Some. congruence. }
  assert (Hfc' : Forall (fun f => 0 <= f) (map user_followers cascade_frame)).
  { apply Forall_map. exact Hfc. }
  unfold engine_call.
  destruct (get_who_rtd_whom_ok user Q G
              (firstn i (map tid cascade_frame))
              (firstn i (map tweet_date cascade_frame))
              (firstn i (map user_followers cascade_frame))
              ts gamma alpha xmin s0) as [p [Hp _]]; try assumption.
  - intros Hnil. apply (f_equal (@length user)) in Hnil.
    rewrite length_firstn, length_map in Hnil. simpl in Hnil. lia.
  - rewrite !length_firstn, !length_map. reflexivity.
  - rewrite !length_firstn, !length_map. reflexivity.
  - apply sorted_prefix_le; assumption.
  - apply firstn_Forall; assumption.
  - rewrite <- firstn_map in Hsum.
    pose proof (np_sum_firstn_le _ 2 i Hfc' Hi). lra.
  - eexists; eexists; exact Hp.
Qed.

(** On such a cascade of at least two events a run of the driver returns. *)
Lemma reconstruct_ok (cascade_frame : list (tweet user))
    (gamma alpha xmin : R) (s : state G) :
  (2 <= length cascade_frame)%nat ->
  StronglySorted Z.le (map tweet_date cascade_frame) ->
  Forall (fun tw => 0 <= user_followers tw) cascade_frame ->
  0 < np_sum (map user_followers (firstn 2 cascade_frame)) ->
  0 <= gamma <= 1 -> 1 < alpha -> 0 < xmin ->
  exists edge_list s',
    reconstruct Q G cascade_frame gamma alpha xmin s = Ok (edge_list, s').
Proof.
  intros HL Hsorted Hfc Hsum Hg Ha Hm.
  unfold reconstruct, entire_cascade_reconstruction, bind, lift, py_index.
  destruct cascade_frame as [|r [|f rest]]; simpl in HL; try lia.
  cbn [map nth_error]. unfold range.
  apply for_each_total.
  - cbn [length]. rewrite ?length_map. lia.
  - cbn [length]. rewrite ?length_map. lia.
  - intros i ts s0 Hi Hts.
    apply (engine_call_ok (r :: f :: rest)); try assumption. lia.
Qed.


End DriverClaims.



(** ** Tree validity *)

Section TreeShape.

Variable user : Type.
Variables (users : list user) (edge_list : list (edge user)).
Hypothesis users_distinct : NoDup users.
Hypothesis shape : edge_shape users edge_list.

Lemma same_position (i j : nat) (v : user) :
  nth_error users i = Some v -> nth_error users j = Some v -> i = j.
Proof.
  intros Hi Hj.
  apply (proj1 (NoDup_nth_error users) users_distinct).
  - apply nth_error_Some; congruence.
  - congruence.
Qed.

(** Every edge sits at the position before that of its child. *)
Lemma edge_at (k : nat) (p c : user) :
  nth_error edge_list k = Some (p, c) ->
  nth_error users (S k) = Some c
  /\ exists j, (j <= k)%nat /\ nth_error users j = Some p.
Proof.
  intros Hk. destruct shape as [Hlen Hall].
  assert (Hlt : (S k < length users)%nat).
  { assert (k < length edge_list)%nat by (apply nth_error_Some; congruence).
    lia. }
  destruct (nth_error users (S k)) as [c'|] eqn:Hc;
    [|apply nth_error_None in Hc; lia].
  destruct (Hall k c' Hc) as [p' [j [Hk' [Hj Hp']]]].
  rewrite Hk in Hk'. injection Hk' as <- <-.
  split; [reflexivity|]. exists j; split; assumption.
Qed.

Lemma edge_positions (p c : user) :
  edge_rel edge_list p c ->
  exists i j, (i < j)%nat /\ nth_error users i = Some p
              /\ nth_error users j = Some c.
Proof.
  intros Hin. apply In_nth_error in Hin. destruct Hin as [k Hk].
  destruct (edge_at k p c Hk) as [Hc [j [Hj Hp]]].
  exists j, (S k). repeat split; [lia|assumption|assumption].
Qed.

Lemma chain_positions (x y : user) :
  clos_trans user (edge_rel edge_list) x y ->
  exists i j, (i < j)%nat /\ nth_error users i = Some x
              /\ nth_error users j = Some y.
Proof.
  induction 1 as [x y Hxy|x y z _ [i [j [Hij [Hi Hj]]]] _ [j' [k [Hjk [Hj' Hk]]]]].
  - apply edge_positions; assumption.
  - assert (j = j') by (eapply same_position; eassumption). subst j'.
    exists i, k. repeat split; [lia|assumption|assumption].
Qed.

Lemma no_cycle (v : user) : ~ clos_trans user (edge_rel edge_list) v v.
Proof.
  intros H. apply chain_positions in H.
  destruct H as [i [j [Hij [Hi Hj]]]].
  assert (i = j) by (eapply same_position; eassumption). lia.
Qed.

Lemma no_self_parent (p c : user) : edge_rel edge_list p c -> p <> c.
Proof.
  intros H Heq. subst c. apply (no_cycle p). apply t_step; assumption.
Qed.

Lemma child_once_at (i : nat) (v : user) :
  (1 <= i)%nat -> nth_error users i = Some v -> child_once edge_list v.
Proof.
  intros Hi Hv. destruct i as [|k]; [lia|].
  destruct shape as [_ Hall]. destruct (Hall k v Hv) as [p [j [Hk _]]].
  exists k, p. split; [exact Hk|].
  intros k' p' Hk'. destruct (edge_at k' p' v Hk') as [Hv' _].
  assert (S k' = S k) by (eapply same_position; eassumption). lia.
Qed.

Lemma root_has_no_parent (root p : user) :
  nth_error users 0 = Some root -> ~ edge_rel edge_list p root.
Proof.
  intros Hroot Hin. apply edge_positions in Hin.
  destruct Hin as [i [j [Hij [_ Hj]]]].
  assert (j = 0)%nat by (eapply same_position; eassumption). lia.
Qed.

Lemma position_reaches (root : user) (i : nat) (v : user) :
  nth_error users 0 = Some root -> nth_error users i = Some v ->
  reaches edge_list root v.
Proof.
  intros Hroot. revert v.
  induction i as [i IH] using (well_founded_induction lt_wf); intros v Hv.
  destruct i as [|k].
  - rewrite Hroot in Hv. injection Hv as <-. constructor.
  - destruct shape as [_ Hall]. destruct (Hall k v Hv) as [p [j [Hk [Hj Hp]]]].
    apply reaches_step with (p := p).
    + apply (IH j); [lia|assumption].
    + unfold edge_rel. eapply nth_error_In; eassumption.
Qed.

Lemma shape_rooted_tree (root : user) :
  nth_error users 0 = Some root -> rooted_tree root users edge_list.
Proof.
  intros Hroot. repeat split.
  - apply edge_positions in H. destruct H as [i [j [_ [Hi _]]]].
    eapply nth_error_In; eassumption.
  - apply edge_positions in H. destruct H as [i [j [_ [_ Hj]]]].
    eapply nth_error_In; eassumption.
  - intros p. apply root_has_no_parent; assumption.
  - intros v Hv. apply In_nth_error in Hv. destruct Hv as [i Hi].
    eapply position_reaches; eassumption.
  - apply no_cycle.
Qed.

End TreeShape.

Lemma In_firstn_position {A : Type} (l : list A) (n : nat) (x : A) :
  In x (firstn n l) -> exists j, (j < n)%nat /\ nth_error l j = Some x.
Proof.
  intros H. apply In_nth_error in H. destruct H as [j Hj].
  rewrite nth_error_firstn in Hj.
  destruct (j <? n)%nat eqn:E; [|discriminate].
  apply Nat.ltb_lt in E. exists j; split; assumption.
Qed.

Section TreeClaims.

Variable user : Type.
Variable Q : quadrature.
Variable G : generator.

(** Every edge list the driver returns has the shape of [edge_shape]. *)
Lemma driver_edge_shape (users : list user) (tstamps : list Z)
    (fcounts : list R) (gamma alpha xmin : R) (s s' : state G)
    (edge_list : list (edge user)) :
  length tstamps = length users ->
  entire_cascade_reconstruction Q G users tstamps fcounts gamma alpha xmin s
  = Ok (edge_list, s') ->
  edge_shape users edge_list.
Proof.
  intros Hlen Hrun. apply entire_cascade_reconstruction_inv in Hrun.
  destruct Hrun as [root [first_rt [new_edges [Hroot [Hfirst [-> Htrace]]]]]].
  destruct Htrace as [Hnew [st [_ [_ Hall]]]].
  assert (HL : (2 <= length users)%nat).
  { assert (1 < length users)%nat by (apply nth_error_Some; congruence). lia. }
  split; [simpl; lia|].
  intros k c Hc. destruct k as [|k].
  - rewrite Hfirst in Hc. injection Hc as <-.
    exists root, 0%nat. repeat split; [lia|assumption].
  - assert (Hk : (S (S k) < length users)%nat)
      by (apply nth_error_Some; congruence).
    destruct (Hall (S (S k))) as [ts [u [p [_ [Hu [Hp Hnth]]]]]]; [lia|].
    rewrite Hc in Hu. injection Hu as <-.
    unfold engine_call in Hp. apply get_who_rtd_whom_inv in Hp.
    apply In_firstn_position in Hp. destruct Hp as [j [Hj Hpj]].
    exists p, j. simpl in Hnth. rewrite Nat.sub_0_r in Hnth.
    repeat split; [exact Hnth|lia|assumption].
Qed.

(** C2.  For a cascade of L >= 2 events with distinct actors, every edge
    list a run of the driver returns has exactly L-1 edges; every actor
    but the root is the child of exactly one edge; the parent of every edge
    stands strictly earlier in the event order than its child, so that no
    actor is its own parent; and the edges form a tree rooted at the root
    actor: every actor is linked to the root and there is no cycle. *)
Theorem reconstruct_tree (cascade_frame : list (tweet user))
    (gamma alpha xmin : R) (s s' : state G) (edge_list : list (edge user)) :
  (2 <= length cascade_frame)%nat ->
  NoDup (map tid cascade_frame) ->
  reconstruct Q G cascade_frame gamma alpha xmin s = Ok (edge_list, s') ->
  length edge_list = (length cascade_frame - 1)%nat
  /\ (forall i tw, (1 <= i)%nat -> nth_error cascade_frame i = Some tw ->
        child_once edge_list (tid tw))
  /\ (forall p c, In (p, c) edge_list ->
        p <> c
        /\ exists i j twp twc,
             (i < j)%nat /\ nth_error cascade_frame i = Some twp
             /\ nth_error cascade_frame j = Some twc
             /\ tid twp = p /\ tid twc = c)
  /\ (forall root, nth_error cascade_frame 0 = Some root ->
        rooted_tree (tid root) (map tid cascade_frame) edge_list).
Proof.
  intros HL Hdistinct Hrun. unfold reconstruct in Hrun.
  apply driver_edge_shape in Hrun; [|rewrite !length_map; reflexivity].
  split; [|split; [|split]].
  - destruct Hrun as [Hlen _]. rewrite length_map in Hlen. exact Hlen.
  - intros i tw Hi Htw.
    apply (child_once_at user (map tid cascade_frame) edge_list Hdistinct
             Hrun i); [assumption|].
    rewrite nth_error_map, Htw; reflexivity.
  - intros p c Hin. split.
    + apply (no_self_parent user (map tid cascade_frame) edge_list Hdistinct
               Hrun). exact Hin.
    + destruct (edge_positions user (map tid cascade_frame) edge_list Hrun
                  p c Hin) as [i [j [Hij [Hi Hj]]]].
      rewrite nth_error_map in Hi, Hj.
      destruct (nth_error cascade_frame i) as [twp|] eqn:Ei; [|discriminate].
      destruct (nth_error cascade_frame j) as [twc|] eqn:Ej; [|discriminate].
      simpl in Hi, Hj. injection Hi as Hi. injection Hj as Hj.
      exists i, j, twp, twc. repeat split; assumption.
  - intros root Hroot.
    apply (shape_rooted_tree user (map tid cascade_frame) edge_list Hdistinct
             Hrun).
    rewrite nth_error_map, Hroot; reflexivity.
Qed.

End TreeClaims.

Lemma reconstruct_tree_witness :
  exists edge_list,
    length edge_list = 2%nat
    /\ rooted_tree 0%nat [0%nat; 1%nat; 2%nat] edge_list.
Proof.
  destruct (reconstruct_ok nat midpoint halves cascade_abc (1 / 2) 2 1 0%nat)
    as [edge_list [s' Hrun]];
    [simpl; lia|simpl; repeat constructor; lia
    |unfold cascade_abc; repeat constructor; simpl; lra
    |simpl; lra|lra|lra|lra|].
  exists edge_list.
  destruct (reconstruct_tree nat midpoint halves cascade_abc (1 / 2) 2 1
              0%nat s' edge_list) as [Hlen [_ [_ Htree]]].
  - simpl; lia.
  - simpl. repeat constructor; simpl; intuition lia.
  - exact Hrun.
  - split; [exact Hlen|]. apply (Htree (Build_tweet 0%nat 0%Z 50)). reflexivity.
Defined.

(** ** The combined vector *)

Lemma p_final_nth (gamma : R) (pa pt : list R) (i : nat) (a t : R) :
  nth_error pa i = Some a -> nth_error pt i = Some t ->
  nth_error (p_final gamma pa pt) i = Some (gamma * a + (1 - gamma) * t).
Proof.
  unfold p_final. revert pt i.
  induction pa as [|a0 pa IH]; intros [|t0 pt] [|i] Ha Ht; simpl in *;
    try discriminate.
  - injection Ha as <-. injection Ht as <-. reflexivity.
  - apply IH; assumption.
Qed.

Lemma np_mul_one (x : npfloat) : np_mul (Fin 1) x = x.
Proof.
  destruct x as [b| | |]; simpl; try reflexivity.
  - f_equal; lra.
  - unfold np_scale_inf. destruct (Req_dec_T 1 0); [lra|].
    destruct (Rlt_dec 0 1); [reflexivity|lra].
  - unfold np_scale_inf. destruct (Req_dec_T 1 0); [lra|].
    destruct (Rlt_dec 0 1); [reflexivity|lra].
Qed.

Lemma np_scalar_mul_one (xs : list npfloat) : np_scalar_mul 1 xs = xs.
Proof.
  unfold np_scalar_mul. induction xs as [|x xs IH]; cbn [map];
    [|rewrite np_mul_one, IH]; reflexivity.
Qed.

Lemma np_add_zero_r (x : npfloat) (z : R) : z = 0 -> np_add x (Fin z) = x.
Proof. intros ->. destruct x; simpl; try reflexivity. f_equal; lra. Qed.

Lemma np_add_zero_l (x : npfloat) (z : R) : z = 0 -> np_add (Fin z) x = x.
Proof. intros ->. destruct x; simpl; try reflexivity. f_equal; lra. Qed.

Lemma zip_with_zeros_r (xs : list npfloat) (zs : list R) :
  length xs = length zs -> Forall (fun z => z = 0) zs ->
  zip_with np_add xs (map Fin zs) = xs.
Proof.
  revert zs; induction xs as [|x xs IH]; intros [|z zs] Hlen Hz;
    cbn [length] in *; try discriminate; [reflexivity|].
  inversion Hz; subst. cbn [map zip_with].
  rewrite np_add_zero_r by reflexivity.
  rewrite IH by (try lia; assumption). reflexivity.
Qed.

Lemma zip_with_zeros_l (zs : list R) (xs : list npfloat) :
  length zs = length xs -> Forall (fun z => z = 0) zs ->
  zip_with np_add (map Fin zs) xs = xs.
Proof.
  revert xs; induction zs as [|z zs IH]; intros [|x xs] Hlen Hz;
    cbn [length] in *; try discriminate; [reflexivity|].
  inversion Hz; subst. cbn [map zip_with].
  rewrite np_add_zero_l by reflexivity.
  rewrite IH by (try lia; assumption). reflexivity.
Qed.

Lemma scaled_by_zero (l : list R) :
  Forall (fun z => z = 0) (map (fun x => 0 * x) l).
Proof. apply Forall_map. apply Forall_forall. intros x _. lra. Qed.

Section EngineClaims.

Variable Q : quadrature.

(** C3.  For a non-empty candidate set with non-negative audience sizes of
    positive sum, candidates not later than the current event, gamma in
    [0,1], alpha > 1 and xmin > 0, the vector the engine hands to the
    sampler is finite, its entry i is gamma * p_audience[i] +
    (1 - gamma) * p_time[i], all its entries are non-negative and, over
    exact arithmetic, they sum to 1. *)
Theorem indiv_probs_distribution (tstamps : list Z) (fcounts : list R)
    (curr : Z) (gamma alpha xmin : R) :
  fcounts <> [] -> length fcounts = length tstamps ->
  Forall (fun f => 0 <= f) fcounts -> 0 < np_sum fcounts ->
  Forall (fun t => (t <= curr)%Z) tstamps ->
  0 <= gamma <= 1 -> 1 < alpha -> 0 < xmin ->
  exists pa pt,
    fcount_probabilities fcounts = map Fin pa
    /\ norm_tstamp_prob_array Q curr tstamps alpha xmin = Ok (map Fin pt)
    /\ indiv_probs Q tstamps fcounts curr gamma alpha xmin
       = Ok (map Fin (p_final gamma pa pt))
    /\ length (p_final gamma pa pt) = length fcounts
    /\ (forall i a t, nth_error pa i = Some a -> nth_error pt i = Some t ->
          nth_error (p_final gamma pa pt) i
          = Some (gamma * a + (1 - gamma) * t))
    /\ Forall (fun x => 0 <= x) (p_final gamma pa pt)
    /\ np_sum (p_final gamma pa pt) = 1.
Proof.
  intros Hne Hlen Hfc Hsum Hts Hg Ha Hm.
  destruct (tdiff_probs_ok Q curr tstamps alpha xmin Ha Hm Hts)
    as [ds [Hds [Hpos Hdl]]].
  assert (Hdne : ds <> []).
  { destruct ds; [|discriminate]. destruct fcounts; [congruence|].
    simpl in *; lia. }
  pose proof (np_sum_pos ds Hdne Hpos) as Hdsum.
  assert (Hlen' : length (p_audience fcounts) = length (p_time ds))
    by (rewrite p_audience_length, p_time_length; lia).
  exists (p_audience fcounts), (p_time ds).
  split; [apply fcount_probabilities_Fin; lra|].
  split; [apply norm_tstamp_prob_array_Fin; [assumption|lra]|].
  split; [apply indiv_probs_Fin; try assumption; lra|].
  split; [rewrite p_final_length, p_audience_length by assumption; reflexivity|].
  split; [intros i a t; apply p_final_nth|].
  split.
  - apply p_final_nonneg; [assumption| |].
    + apply normalised_nonneg; assumption.
    + apply normalised_nonneg; [|assumption].
      eapply Forall_impl; [|exact Hpos]. simpl; intros; lra.
  - rewrite p_final_sum by assumption.
    unfold p_audience, p_time. rewrite !normalised_sum by lra. lra.
Qed.

End EngineClaims.

Lemma indiv_probs_distribution_witness :
  exists p,
    indiv_probs midpoint [0%Z; 10%Z] [50; 100] 20 (1 / 2) 2 1 = Ok (map Fin p)
    /\ np_sum p = 1.
Proof.
  destruct (indiv_probs_distribution midpoint [0%Z; 10%Z] [50; 100] 20
              (1 / 2) 2 1) as [pa [pt [_ [_ [Hp [_ [_ [_ Hsum]]]]]]]].
  - discriminate.
  - reflexivity.
  - repeat constructor; lra.
  - simpl; lra.
  - repeat constructor; lia.
  - lra.
  - lra.
  - lra.
  - exists (p_final (1 / 2) pa pt). split; assumption.
Defined.

(** ** Equal time gaps *)

Lemma rmap_const {A B : Type} (f : A -> result B) (l : list A) (b : B) :
  (forall a, In a l -> f a = Ok b) -> rmap f l = Ok (repeat b (length l)).
Proof.
  induction l as [|a l IH]; intros H; simpl; [reflexivity|].
  rewrite (H a (or_introl eq_refl)); simpl.
  rewrite IH by (intros; apply H; right; assumption). reflexivity.
Qed.

Lemma map_repeat {A B : Type} (f : A -> B) (a : A) (n : nat) :
  map f (repeat a n) = repeat (f a) n.
Proof. induction n as [|n IH]; simpl; [|rewrite IH]; reflexivity. Qed.

(** When every candidate is at the same distance [g] from the current
    event and the density at [g + 0.1] is [d], not zero, the time-decay
    distribution gives [1/n] to each of the [n] candidates. *)
Lemma norm_equal_gaps (Q : quadrature) (tstamps : list Z) (curr g : Z)
    (alpha xmin d e : R) :
  tstamps <> [] -> Forall (fun t => (curr - t)%Z = g) tstamps ->
  power_law Q (IZR g + 1 / 10) alpha xmin = Ok (d, e) -> d <> 0 ->
  tdiff_probs Q curr tstamps alpha xmin = Ok (repeat d (length tstamps))
  /\ norm_tstamp_prob_array Q curr tstamps alpha xmin
     = Ok (repeat (Fin (1 / INR (length tstamps))) (length tstamps)).
Proof.
  intros Hne Hg Hd Hd0.
  assert (Hds : tdiff_probs Q curr tstamps alpha xmin
                = Ok (repeat d (length tstamps))).
  { unfold tdiff_probs, time_diffs.
    rewrite <- (length_map (fun t => (curr - t)%Z) tstamps).
    apply rmap_const. intros a Ha. apply in_map_iff in Ha.
    destruct Ha as [t [<- Ht]].
    rewrite (proj1 (Forall_forall _ _) Hg t Ht), Hd. reflexivity. }
  split; [exact Hds|].
  unfold norm_tstamp_prob_array. rewrite Hds; simpl.
  rewrite map_repeat, np_sum_repeat. do 2 f_equal.
  assert (Hn : INR (length tstamps) <> 0).
  { apply not_0_INR. destruct tstamps; [congruence|discriminate]. }
  rewrite np_true_divide_Fin.
  - f_equal. field. split; assumption.
  - apply Rmult_integral_contrapositive_currified; assumption.
Qed.

(** ** The points of the quadrature *)

Lemma quad_points_in_window (Q : quadrature) (a b : R) :
  a <= b -> Forall (fun x => a <= x <= b) (quad_points Q a b).
Proof.
  intros Hab. unfold quad_points. apply Forall_map.
  eapply Forall_impl; [|exact (rule_nodes Q)].
  simpl; intros [x w] Hx; simpl in *. split; nra.
Qed.

(** [quad] returns exactly when the integrand returns at every point. *)
Lemma quad_ok_iff (Q : quadrature) (f : R -> result R) (a b : R) :
  (exists r, quad Q f a b = Ok r)
  <-> Forall (fun x => exists v, f x = Ok v) (quad_points Q a b).
Proof.
  unfold quad, quad_points. split.
  - intros [r Hr].
    destruct (rmap _ (rule Q)) as [terms|e] eqn:Hterms; [|discriminate].
    apply rmap_inv in Hterms. apply Forall_map.
    clear Hr. induction Hterms as [|nw t l ts Hnw _ IH]; constructor;
      [|exact IH].
    destruct (f _) as [v|e]; [exists v; reflexivity|discriminate].
  - intros H. apply (proj1 (Forall_map _ _ _)) in H.
    destruct (rmap_Forall2
                (fun nw => (fx <- f ((a + b) / 2 + (b - a) / 2 * fst nw) ;;
                            Ok (snd nw * fx))%result)
                (fun _ _ => True) (rule Q)) as [terms [Hterms _]].
    + intros nw Hin.
      destruct (proj1 (Forall_forall _ _) H nw Hin) as [v Hv].
      exists (snd nw * v). rewrite Hv. split; [reflexivity|exact I].
    + rewrite Hterms. simpl. eexists; reflexivity.
Qed.

Section TimeDecayClaims.

Variable Q : quadrature.

(** C9.  When all the candidates are at the same non-negative distance
    from the current event (alpha > 1, xmin > 0), the densities are one and
    the same positive number, no error is raised, and the normalised
    time-decay distribution is exactly the uniform one: [1/n] for each of
    the [n] candidates. *)
Theorem equal_gaps_uniform (tstamps : list Z) (curr g : Z) (alpha xmin : R) :
  tstamps <> [] -> Forall (fun t => (curr - t)%Z = g) tstamps ->
  (0 <= g)%Z -> 1 < alpha -> 0 < xmin ->
  exists d,
    0 < d
    /\ tdiff_probs Q curr tstamps alpha xmin = Ok (repeat d (length tstamps))
    /\ norm_tstamp_prob_array Q curr tstamps alpha xmin
       = Ok (repeat (Fin (1 / INR (length tstamps))) (length tstamps)).
Proof.
  intros Hne Hgaps Hg Ha Hm.
  destruct (power_law_pos Q (IZR g + 1 / 10) alpha xmin Ha Hm)
    as [d [e [Hd Hpos]]].
  { assert (0 <= IZR g) by (apply IZR_le; assumption). unfold epsilon; lra. }
  exists d. split; [exact Hpos|].
  apply (norm_equal_gaps Q tstamps curr g alpha xmin d e); try assumption.
  lra.
Qed.

(** C10.  With candidates that are not later than the current event,
    alpha > 1 and xmin > 0: each evaluation of [power_law] is made at
    z = gap + 0.1 >= 0.1; the window [z - epsilon, z + epsilon] holds
    positive numbers only, and so do the points at which the integrand is
    called; on the window the integrand divides by no zero and is positive;
    every density is positive; and, for a non-empty candidate set, the sum
    by which the densities are divided is positive, so that the normalised
    array is finite. *)
Theorem time_decay_no_zero_division (tstamps : list Z) (curr : Z)
    (alpha xmin : R) :
  tstamps <> [] -> Forall (fun t => (t <= curr)%Z) tstamps ->
  1 < alpha -> 0 < xmin ->
  (forall t, In t tstamps ->
     let z := IZR (curr - t) + 1 / 10 in
     1 / 10 <= z
     /\ 0 < z - epsilon
     /\ Forall (fun x => 0 < x) (quad_points Q (z - epsilon) (z + epsilon))
     /\ (forall x, z - epsilon <= x <= z + epsilon ->
           x <> 0
           /\ exists v, power_law_integrand alpha xmin x = Ok v /\ 0 < v)
     /\ exists d e, power_law Q z alpha xmin = Ok (d, e) /\ 0 < d)
  /\ exists ds,
       tdiff_probs Q curr tstamps alpha xmin = Ok ds
       /\ Forall (fun d => 0 < d) ds
       /\ 0 < np_sum ds
       /\ norm_tstamp_prob_array Q curr tstamps alpha xmin
          = Ok (map Fin (p_time ds)).
Proof.
  intros Hne Hts Ha Hm. split.
  - intros t Ht z.
    pose proof (proj1 (Forall_forall _ _) Hts t Ht) as Hle.
    destruct (shifted_gap_window curr t Hle) as [Hz Hwin]. fold z in Hz, Hwin.
    pose proof epsilon_pos as He.
    split; [exact Hz|]. split; [exact Hwin|]. split; [|split].
    + eapply Forall_impl; [|apply quad_points_in_window; lra].
      simpl; intros x Hx; lra.
    + intros x Hx. split; [lra|].
      exists (power_law_density alpha xmin x). split.
      * apply power_law_integrand_ok; lra.
      * apply power_law_density_pos; assumption.
    + apply power_law_pos; try assumption. lra.
  - destruct (tdiff_probs_ok Q curr tstamps alpha xmin Ha Hm Hts)
      as [ds [Hds [Hpos Hlen]]].
    assert (Hdne : ds <> []).
    { destruct ds; [|discriminate]. destruct tstamps; [congruence|].
      simpl in Hlen; lia. }
    pose proof (np_sum_pos ds Hdne Hpos) as Hsum.
    exists ds. repeat split; try assumption.
    apply norm_tstamp_prob_array_Fin; [assumption|lra].
Qed.

End TimeDecayClaims.

Lemma equal_gaps_uniform_witness :
  norm_tstamp_prob_array midpoint 30 [20%Z; 20%Z; 20%Z] 2 1
  = Ok [Fin (1 / 3); Fin (1 / 3); Fin (1 / 3)].
Proof.
  destruct (equal_gaps_uniform midpoint [20%Z; 20%Z; 20%Z] 30 10 2 1)
    as [d [_ [_ Hnorm]]].
  - discriminate.
  - repeat constructor.
  - lia.
  - lra.
  - lra.
  - rewrite Hnorm. simpl.
    replace (1 / (1 + 1 + 1)) with (1 / 3) by lra. reflexivity.
Defined.

Lemma time_decay_no_zero_division_witness :
  exists ds,
    tdiff_probs midpoint 20 [0%Z; 10%Z] 2 1 = Ok ds /\ 0 < np_sum ds.
Proof.
  destruct (time_decay_no_zero_division midpoint [0%Z; 10%Z] 20 2 1)
    as [_ [ds [Hds [_ [Hsum _]]]]].
  - discriminate.
  - repeat constructor; lia.
  - lra.
  - lra.
  - exists ds. split; assumption.
Defined.

(** ** The two ends of [gamma] *)

Lemma indiv_probs_gamma_one (Q : quadrature) (tstamps : list Z)
    (fcounts : list R) (curr : Z) (alpha xmin : R) :
  length fcounts = length tstamps ->
  1 < alpha -> 0 < xmin -> Forall (fun t => (t <= curr)%Z) tstamps ->
  indiv_probs Q tstamps fcounts curr 1 alpha xmin
  = Ok (fcount_probabilities fcounts).
Proof.
  intros Hlen Ha Hm Hts.
  destruct (tdiff_probs_ok Q curr tstamps alpha xmin Ha Hm Hts)
    as [ds [Hds [Hpos Hdl]]].
  destruct tstamps as [|t0 tstamps'].
  - destruct fcounts; [|discriminate]. destruct ds; [|discriminate].
    unfold indiv_probs, norm_tstamp_prob_array. rewrite Hds. reflexivity.
  - assert (Hdne : ds <> []) by (destruct ds; [discriminate|discriminate]).
    pose proof (np_sum_pos ds Hdne Hpos) as Hsum.
    unfold indiv_probs.
    rewrite (norm_tstamp_prob_array_Fin Q _ _ _ _ ds Hds) by lra. simpl rbind.
    rewrite np_scalar_mul_one, np_scalar_mul_Fin.
    replace (1 - 1) with 0 by lra.
    unfold np_array_add. rewrite !length_map, p_time_length.
    unfold fcount_probabilities at 1. rewrite length_map.
    replace (length fcounts =? length ds)%nat with true
      by (symmetry; apply Nat.eqb_eq; lia).
    rewrite zip_with_zeros_r; [reflexivity| |apply scaled_by_zero].
    unfold fcount_probabilities. rewrite !length_map, p_time_length. lia.
Qed.

Lemma indiv_probs_gamma_zero (Q : quadrature) (tstamps : list Z)
    (fcounts : list R) (curr : Z) (alpha xmin : R) :
  length fcounts = length tstamps -> np_sum fcounts <> 0 ->
  indiv_probs Q tstamps fcounts curr 0 alpha xmin
  = norm_tstamp_prob_array Q curr tstamps alpha xmin.
Proof.
  intros Hlen Hsum. unfold indiv_probs.
  destruct (norm_tstamp_prob_array Q curr tstamps alpha xmin) as [np|e] eqn:Hn;
    [|reflexivity].
  simpl rbind.
  assert (Hnl : length np = length tstamps).
  { unfold norm_tstamp_prob_array in Hn.
    destruct (tdiff_probs Q curr tstamps alpha xmin) as [ds|e] eqn:Hds;
      [|discriminate].
    simpl in Hn. injection Hn as <-. rewrite length_map.
    eapply tdiff_probs_length; eassumption. }
  rewrite (fcount_probabilities_Fin _ Hsum), np_scalar_mul_Fin.
  replace (1 - 0) with 1 by lra. rewrite np_scalar_mul_one.
  unfold np_array_add. rewrite !length_map, p_audience_length.
  replace (length fcounts =? length np)%nat with true
    by (symmetry; apply Nat.eqb_eq; lia).
  rewrite zip_with_zeros_l; [reflexivity| |apply scaled_by_zero].
  rewrite length_map, p_audience_length. lia.
Qed.




(** ** A candidate set without audience: the engine *)

(** C5.  On two candidates that both have audience 0 (gamma = 0.5,
    alpha = 2, xmin = 1, gaps 20 and 10) the audience probabilities are
    [nan, nan], so is the vector handed to the sampler, and the engine
    raises [ValueError]: there is no fallback distribution. *)
Theorem zero_audience_raises :
  fcount_probabilities [0; 0] = [NaN; NaN]
  /\ indiv_probs midpoint [0%Z; 10%Z] [0; 0] 20 (1 / 2) 2 1 = Ok [NaN; NaN]
  /\ get_who_rtd_whom midpoint halves [0%nat; 1%nat] [0%Z; 10%Z] [0; 0] 20
       (1 / 2) 2 1 0%nat
     = Raise ValueError.
Proof.
  assert (Hts : Forall (fun t => (t <= 20)%Z) [0%Z; 10%Z])
    by (repeat constructor; lia).
  split; [|split].
  - pose proof (fcount_probabilities_zero [0; 0]) as H.
    destruct (fcount_probabilities [0; 0]) as [|x [|y [|z l]]] eqn:E;
      try discriminate.
    assert (Hall : Forall (fun f => f = 0) [0; 0]) by (repeat constructor).
    specialize (H Hall). inversion H as [|? ? Hx H']; subst.
    inversion H' as [|? ? Hy _]; subst. reflexivity.
  - destruct (indiv_probs_zero_audience midpoint [0%Z; 10%Z] [0; 0] 20
                (1 / 2) 2 1) as [p [Hp [Hlen Hnan]]];
      [reflexivity|repeat constructor|lra|lra|exact Hts|].
    rewrite Hp. f_equal.
    destruct p as [|x [|y [|z p]]]; try discriminate.
    inversion Hnan as [|? ? Hx Hnan']; subst.
    inversion Hnan' as [|? ? Hy _]; subst. reflexivity.
  - apply get_who_rtd_whom_zero_audience;
      [discriminate|reflexivity|repeat constructor|lra|lra|exact Hts].
Qed.

(** ** What the engine checks *)

Lemma rule_not_empty (Q : quadrature) : rule Q <> [].
Proof.
  intros H. pose proof (rule_total Q) as Ht. rewrite H in Ht. simpl in Ht. lra.
Qed.

Lemma power_law_xmin_zero (Q : quadrature) (z alpha : R) :
  power_law Q z alpha 0 = Raise ZeroDivisionError.
Proof.
  unfold power_law, quad. pose proof (rule_not_empty Q) as Hne.
  destruct (rule Q) as [|nw l]; [congruence|].
  simpl. unfold power_law_integrand, py_div.
  destruct (Req_dec_T 0 0) as [_|H]; [reflexivity|contradiction H; reflexivity].
Qed.

Section ValidationClaims.

Variable user : Type.
Variable Q : quadrature.
Variable G : generator.

(** C6 (amended).  The core validates nothing by itself and clamps
    nothing.  Whenever neither normalisation divides by zero, whatever
    gamma, alpha, xmin and the signs of the inputs are, the vector handed
    to the sampler is gamma * p_audience + (1 - gamma) * p_time with the
    gamma that was given, and it sums to 1; the call is refused, with the
    [ValueError] of the sampler's own check, when an entry of that vector
    is negative, and a candidate is sampled when none is.  With xmin = 0
    (and at least one candidate) the integrand raises [ZeroDivisionError]
    before any sampling. *)
Theorem engine_checks_only_the_vector :
  (forall (users : list user) (tstamps : list Z) (fcounts : list R)
          (curr : Z) (gamma alpha xmin : R) (s : state G) (ds : list R),
     users <> [] ->
     length tstamps = length users -> length fcounts = length users ->
     tdiff_probs Q curr tstamps alpha xmin = Ok ds ->
     np_sum ds <> 0 -> np_sum fcounts <> 0 ->
     let p := p_final gamma (p_audience fcounts) (p_time ds) in
     indiv_probs Q tstamps fcounts curr gamma alpha xmin = Ok (map Fin p)
     /\ np_sum p = 1
     /\ (Forall (fun x => 0 <= x) p ->
         exists x,
           get_who_rtd_whom Q G users tstamps fcounts curr gamma alpha xmin s
           = Ok (x, snd (random_sample G s))
           /\ In x users)
     /\ (Exists (fun x => x < 0) p ->
         get_who_rtd_whom Q G users tstamps fcounts curr gamma alpha xmin s
         = Raise ValueError))
  /\ (forall (users : list user) (tstamps : list Z) (fcounts : list R)
             (curr : Z) (gamma alpha : R) (s : state G),
        tstamps <> [] ->
        get_who_rtd_whom Q G users tstamps fcounts curr gamma alpha 0 s
        = Raise ZeroDivisionError).
Proof.
  split.
  - intros users tstamps fcounts curr gamma alpha xmin s ds
      Hne Hlt Hlf Hds Hdsum Hfsum p.
    assert (Hp : indiv_probs Q tstamps fcounts curr gamma alpha xmin
                 = Ok (map Fin p))
      by (apply indiv_probs_Fin; try assumption; lia).
    assert (Hdl : length ds = length tstamps)
      by (eapply tdiff_probs_length; eassumption).
    assert (Hlen : length (p_audience fcounts) = length (p_time ds))
      by (rewrite p_audience_length, p_time_length; lia).
    assert (Hsum : np_sum p = 1).
    { unfold p. rewrite p_final_sum by assumption.
      unfold p_audience, p_time. rewrite !normalised_sum by assumption. lra. }
    split; [exact Hp|]. split; [exact Hsum|]. split.
    + intros Hpos. unfold get_who_rtd_whom, bind, lift. rewrite Hp.
      apply choice_ok; [assumption| |assumption|].
      * unfold p. rewrite p_final_length, p_audience_length by assumption. lia.
      * rewrite Hsum. replace (1 - 1) with 0 by lra. rewrite Rabs_R0.
        pose proof atol_bounds; lra.
    + intros Hneg. unfold get_who_rtd_whom, bind, lift. rewrite Hp.
      apply choice_negative; assumption.
  - intros users tstamps fcounts curr gamma alpha s Hne.
    unfold get_who_rtd_whom, bind, lift, indiv_probs, norm_tstamp_prob_array,
      tdiff_probs, time_diffs.
    destruct tstamps as [|t tstamps]; [congruence|].
    simpl. rewrite power_law_xmin_zero. reflexivity.
Qed.

End ValidationClaims.

(** The density vector of two candidates at the same distance. *)
Lemma tdiff_probs_pair (Q : quadrature) :
  exists d, 0 < d /\ tdiff_probs Q 10 [0%Z; 0%Z] 2 1 = Ok [d; d].
Proof.
  destruct (power_law_pos Q (IZR 10 + 1 / 10) 2 1) as [d [e [Hd Hpos]]];
    [lra|lra|unfold epsilon; lra|].
  exists d. split; [exact Hpos|].
  apply (norm_equal_gaps Q [0%Z; 0%Z] 10 10 2 1 d e);
    [discriminate|repeat constructor|exact Hd|lra].
Qed.

Lemma engine_checks_only_the_vector_witness :
  exists x,
    get_who_rtd_whom midpoint halves [0%nat; 1%nat] [0%Z; 0%Z] [1; 3] 10
      (1 / 4) 2 1 0%nat
    = Ok (x, 1%nat).
Proof.
  destruct (tdiff_probs_pair midpoint) as [d [Hd Hds]].
  destruct (proj1 (engine_checks_only_the_vector nat midpoint halves)
              [0%nat; 1%nat] [0%Z; 0%Z] [1; 3] 10%Z (1 / 4) 2 1 0%nat [d; d])
    as [_ [_ [Hok _]]].
  - discriminate.
  - reflexivity.
  - reflexivity.
  - exact Hds.
  - simpl; lra.
  - simpl; lra.
  - destruct Hok as [x [Hx _]].
    + unfold p_final, p_audience, p_time. simpl.
      replace (d / (d + (d + 0))) with (1 / 2) by (field; lra).
      repeat constructor; lra.
    + exists x. exact Hx.
Defined.

(** C6, as stated, fails: with gamma = 2, outside [0,1], and two candidates
    of equal audience at equal distance the engine raises nothing and
    returns a parent. *)
Lemma gamma_two_accepted :
  ~ (0 <= 2 <= 1)
  /\ exists x,
       get_who_rtd_whom midpoint halves [0%nat; 1%nat] [0%Z; 0%Z] [1; 1] 10
         2 2 1 0%nat
       = Ok (x, 1%nat).
Proof.
  split; [lra|].
  destruct (tdiff_probs_pair midpoint) as [d [Hd Hds]].
  unfold get_who_rtd_whom, bind, lift.
  rewrite (indiv_probs_Fin midpoint [0%Z; 0%Z] [1; 1] 10 2 2 1 [d; d]);
    [|reflexivity|exact Hds|simpl; lra|simpl; lra].
  destruct (choice_ok nat halves [0%nat; 1%nat]
              (p_final 2 (p_audience [1; 1]) (p_time [d; d])) 0%nat)
    as [x [Hx _]].
  - discriminate.
  - reflexivity.
  - unfold p_final, p_audience, p_time. simpl.
    replace (d / (d + (d + 0))) with (1 / 2) by (field; lra).
    repeat constructor; lra.
  - unfold p_final, p_audience, p_time. simpl.
    replace (d / (d + (d + 0))) with (1 / 2) by (field; lra).
    replace (2 * (1 / (1 + (1 + 0))) + (1 - 2) * (1 / 2)
             + (2 * (1 / (1 + (1 + 0))) + (1 - 2) * (1 / 2) + 0) - 1)
      with 0 by lra.
    rewrite Rabs_R0. pose proof atol_bounds; lra.
  - exists x. exact Hx.
Qed.

(** ** The versions of a cascade *)

Lemma Forall2_nth_error_r {A B : Type} (P : A -> B -> Prop) (l1 : list A)
    (l2 : list B) (i : nat) (b : B) :
  Forall2 P l1 l2 -> nth_error l2 i = Some b ->
  exists a, nth_error l1 i = Some a /\ P a b.
Proof.
  intros H; revert i; induction H as [|a0 b0 l1 l2 Hab _ IH]; intros i Hi.
  - destruct i; discriminate.
  - destruct i as [|i]; simpl in *.
    + injection Hi as <-. exists a0; split; [reflexivity|assumption].
    + apply IH; assumption.
Qed.

Lemma nth_error_seq (start len i n : nat) :
  nth_error (seq start len) i = Some n -> n = (start + i)%nat.
Proof.
  revert start i; induction len as [|len IH]; intros start i H.
  - destruct i; discriminate.
  - destruct i as [|i]; simpl in H.
    + injection H as <-. lia.
    + apply IH in H. lia.
Qed.

Section VersionClaims.

Variable user : Type.
Variable Q : quadrature.
Variable G : generator.


End VersionClaims.


(** ** Integration against the closed form *)

Lemma power_law_density_shift (alpha xmin z w : R) :
  0 < xmin -> 0 < z -> 0 < w ->
  power_law_density alpha xmin w
  = power_law_density alpha xmin z * Rpower (z / w) alpha.
Proof.
  intros Hm Hz Hw. unfold power_law_density.
  rewrite Rmult_assoc, Rpower_mult_distr.
  - do 2 f_equal. field. split; lra.
  - apply Rdiv_lt_0_compat; assumption.
  - apply Rdiv_lt_0_compat; assumption.
Qed.

(** For [z >= T > epsilon] the value of [power_law] at [z] is the closed
    form at [z], times the width of the window, within the two factors
    [(T / (T + epsilon)) ^ alpha] and [(T / (T - epsilon)) ^ alpha]. *)
Lemma power_law_relative (Q : quadrature) (z T alpha xmin : R) :
  1 < alpha -> 0 < xmin -> epsilon < T -> T <= z ->
  exists v e,
    power_law Q z alpha xmin = Ok (v, e)
    /\ 2 * epsilon * Rpower (T / (T + epsilon)) alpha
       * power_law_density alpha xmin z <= v
    /\ v <= 2 * epsilon * Rpower (T / (T - epsilon)) alpha
            * power_law_density alpha xmin z.
Proof.
  intros Ha Hm HT Hz. pose proof epsilon_pos as He.
  destruct (power_law_bracket Q z alpha xmin Ha Hm) as [v [Hv [Hlo Hhi]]];
    [lra|].
  pose proof (power_law_density_pos alpha xmin z Ha Hm) as Hd.
  exists v; eexists; split; [exact Hv|].
  rewrite (power_law_density_shift alpha xmin z (z + epsilon)) in Hlo
    by lra.
  rewrite (power_law_density_shift alpha xmin z (z - epsilon)) in Hhi
    by lra.
  assert (HL : Rpower (T / (T + epsilon)) alpha
               <= Rpower (z / (z + epsilon)) alpha).
  { apply Rle_Rpower_l; [lra|]. split.
    - apply Rdiv_lt_0_compat; lra.
    - apply Rmult_le_reg_r with ((T + epsilon) * (z + epsilon)); [nra|].
      replace (T / (T + epsilon) * ((T + epsilon) * (z + epsilon)))
        with (T * (z + epsilon)) by (field; lra).
      replace (z / (z + epsilon) * ((T + epsilon) * (z + epsilon)))
        with (z * (T + epsilon)) by (field; lra).
      nra. }
  assert (HH : Rpower (z / (z - epsilon)) alpha
               <= Rpower (T / (T - epsilon)) alpha).
  { apply Rle_Rpower_l; [lra|]. split.
    - apply Rdiv_lt_0_compat; lra.
    - apply Rmult_le_reg_r with ((T - epsilon) * (z - epsilon)); [nra|].
      replace (z / (z - epsilon) * ((T - epsilon) * (z - epsilon)))
        with (z * (T - epsilon)) by (field; lra).
      replace (T / (T - epsilon) * ((T - epsilon) * (z - epsilon)))
        with (T * (z - epsilon)) by (field; lra).
      nra. }
  assert (Hk : 0 <= 2 * epsilon * power_law_density alpha xmin z) by nra.
  pose proof (Rmult_le_compat_l _ _ _ Hk HL).
  pose proof (Rmult_le_compat_l _ _ _ Hk HH).
  split; lra.
Qed.

Lemma ratio_sum_bounds (a b : R) (vs cs : list R) :
  Forall2 (fun v c => a * c <= v <= b * c) vs cs ->
  a * np_sum cs <= np_sum vs <= b * np_sum cs.
Proof. induction 1; simpl; lra. Qed.

(** Two vectors within the factors [a] and [b] of one another have
    normalisations within the factors [a / b] and [b / a]. *)
Lemma normalised_ratio (a b : R) (vs cs : list R) :
  0 < a -> a <= b -> cs <> [] -> Forall (fun c => 0 < c) cs ->
  Forall2 (fun v c => a * c <= v <= b * c) vs cs ->
  Forall2 (fun p q => a / b * q <= p <= b / a * q) (p_time vs) (p_time cs).
Proof.
  intros Ha Hab Hne Hpos H.
  pose proof (ratio_sum_bounds a b vs cs H) as Hsum.
  pose proof (np_sum_pos cs Hne Hpos) as HC.
  unfold p_time. set (V := np_sum vs) in *. set (C := np_sum cs) in *.
  assert (HV : 0 < V) by nra.
  clearbody V C. clear Hne.
  induction H as [|v c vs cs Hvc _ IH]; simpl; constructor.
  - inversion Hpos as [|? ? Hc _]; subst. split.
    + apply Rle_trans with (a * c / V).
      * replace (a / b * (c / C)) with (a * c / (b * C)) by (field; lra).
        unfold Rdiv. apply Rmult_le_compat_l; [nra|].
        apply Rinv_le_contravar; lra.
      * unfold Rdiv. apply Rmult_le_compat_r; [|lra].
        apply Rlt_le, Rinv_0_lt_compat; assumption.
    + apply Rle_trans with (b * c / V).
      * unfold Rdiv. apply Rmult_le_compat_r; [|lra].
        apply Rlt_le, Rinv_0_lt_compat; assumption.
      * replace (b / a * (c / C)) with (b * c / (a * C)) by (field; lra).
        unfold Rdiv. apply Rmult_le_compat_l; [nra|].
        apply Rinv_le_contravar; nra.
  - apply IH. inversion Hpos; assumption.
Qed.

Lemma Forall2_map_swap {A : Type} (g : A -> R) (R' : R -> R -> Prop)
    (l : list A) (ds : list R) :
  Forall2 (fun x v => R' v (g x)) l ds -> Forall2 R' ds (map g l).
Proof. induction 1; simpl; constructor; assumption. Qed.

Lemma Forall2_of_map {A B C : Type} (f : A -> B) (P : B -> C -> Prop)
    (l : list A) (ds : list C) :
  Forall2 P (map f l) ds -> Forall2 (fun x v => P (f x) v) l ds.
Proof.
  revert ds; induction l as [|x l IH]; intros ds H; simpl in H;
    inversion H; subst; constructor; auto.
Qed.

Lemma window_factors (alpha : R) :
  0 <= alpha ->
  let L := Rpower (1 / 10 / (1 / 10 + epsilon)) alpha in
  let H := Rpower (1 / 10 / (1 / 10 - epsilon)) alpha in
  0 < L /\ 0 < H /\ L <= H
  /\ L / H = Rpower (999 / 1001) alpha /\ H / L = Rpower (1001 / 999) alpha.
Proof.
  intros Ha L H.
  assert (HL : 0 < L) by (unfold L, Rpower; apply exp_pos).
  assert (HH : 0 < H) by (unfold H, Rpower; apply exp_pos).
  assert (E1 : L = Rpower (999 / 1001) alpha * H).
  { unfold L, H. rewrite Rpower_mult_distr.
    - f_equal. unfold epsilon. field.
    - lra.
    - unfold epsilon. lra. }
  assert (E2 : H = Rpower (1001 / 999) alpha * L).
  { unfold L, H. rewrite Rpower_mult_distr.
    - f_equal. unfold epsilon. field.
    - lra.
    - unfold epsilon. lra. }
  split; [exact HL|]. split; [exact HH|]. split; [|split].
  - unfold L, H. apply Rle_Rpower_l; [assumption|].
    unfold epsilon; split; lra.
  - rewrite E1 at 1. field. lra.
  - rewrite E2 at 1. field. lra.
Qed.

Section RefinementClaims.

Variable Q : quadrature.


End RefinementClaims.


Lemma rmap_raises {A B : Type} (f : A -> result B) (l : list A) (a : A)
    (e : exn) :
  In a l -> f a = Raise e -> exists e', rmap f l = Raise e'.
Proof.
  induction l as [|x l IH]; intros Hin Ha; [contradiction|].
  simpl. destruct (f x) as [b|e0] eqn:Hx; simpl; [|exists e0; reflexivity].
  destruct Hin as [->|Hin]; [congruence|].
  destruct (IH Hin Ha) as [e' He']. rewrite He'. exists e'; reflexivity.
Qed.

Lemma three_halves_not_whole : frac_part (3 / 2) <> 0.
Proof.
  intros H. apply fp_nat in H. destruct H as [c Hc].
  assert (H3 : IZR 3 = IZR (2 * c)) by (rewrite mult_IZR; lra).
  apply eq_IZR in H3. lia.
Qed.

(** At t = xmin = epsilon / 2 with alpha = 1.5, every rule that has a node
    in the left quarter of the reference interval calls the integrand at a
    negative number, and [power_law] raises. *)
Lemma power_law_below_zero_raises (Q : quadrature) (x w : R) :
  In (x, w) (rule Q) -> x < - (1 / 2) ->
  exists e, power_law Q (1 / 20000) (3 / 2) (1 / 20000) = Raise e.
Proof.
  intros Hin Hx. unfold power_law, quad.
  destruct (rmap_raises
              (fun nw => (fx <- power_law_integrand (3 / 2) (1 / 20000)
                                  ((1 / 20000 - epsilon + (1 / 20000 + epsilon)) / 2
                                   + (1 / 20000 + epsilon - (1 / 20000 - epsilon)) / 2
                                     * fst nw) ;;
                          Ok (snd nw * fx))%result)
              (rule Q) (x, w) TypeError Hin) as [e He].
  - simpl. unfold power_law_integrand, py_div.
    destruct (Req_dec_T (1 / 20000) 0) as [H|_]; [lra|]. simpl.
    destruct (Req_dec_T _ 0) as [H|_]; [unfold epsilon in H; exfalso; lra|].
    simpl. unfold py_pow.
    destruct (Req_dec_T (3 / 2) 0) as [H|_]; [lra|].
    set (y := (1 / 20000 - epsilon + (1 / 20000 + epsilon)) / 2
              + (1 / 20000 + epsilon - (1 / 20000 - epsilon)) / 2 * x).
    assert (Hy : y < 0) by (unfold y, epsilon; lra).
    assert (Hq : 1 / 20000 / y < 0).
    { unfold Rdiv. apply Rmult_pos_neg; [lra|].
      apply Rinv_lt_0_compat; assumption. }
    destruct (Rlt_dec 0 (1 / 20000 / y)) as [H|_]; [lra|].
    destruct (Req_dec_T (1 / 20000 / y) 0) as [H|_]; [lra|].
    destruct (Req_dec_T (frac_part (3 / 2)) 0) as [H|_];
      [exfalso; exact (three_halves_not_whole H)|].
    reflexivity.
  - rewrite He. exists e; reflexivity.
Qed.


(** * Further properties of the engine *)

Lemma cumsum_nth (acc : R) (p : list R) (j : nat) (c : R) :
  nth_error (cumsum acc p) j = Some c -> c = acc + np_sum (firstn (S j) p).
Proof.
  revert acc j; induction p as [|x p IH]; intros acc j H.
  - destruct j; discriminate.
  - destruct j as [|j]; simpl in H.
    + injection H as <-. simpl. lra.
    + apply IH in H. rewrite H. simpl. lra.
Qed.

Lemma searchsorted_right_spec (cdf : list R) (u : R) :
  (forall j c, (j < searchsorted_right cdf u)%nat ->
     nth_error cdf j = Some c -> c <= u)
  /\ (forall c, nth_error cdf (searchsorted_right cdf u) = Some c -> u < c).
Proof.
  induction cdf as [|c0 cdf [IHlo IHhi]]; simpl.
  - split; [intros j c Hj; lia|discriminate].
  - destruct (Rlt_dec u c0) as [Hlt|Hge].
    + split; [intros j c Hj; lia|]. intros c H. injection H as <-. exact Hlt.
    + split.
      * intros [|j] c Hj H; simpl in H.
        -- injection H as <-. lra.
        -- apply (IHlo j); [lia|exact H].
      * intros c H. apply IHhi. exact H.
Qed.

Section EngineFacts.

Variable user : Type.
Variable Q : quadrature.
Variable G : generator.

(** X1.  Whenever the engine returns, the parent is one of the candidate
    users, exactly one sample has been drawn from the generator, and the
    vector that was sampled from is finite, of the length of the list of
    users, non-negative, and sums to 1 within [atol]. *)
Theorem get_who_rtd_whom_returns_candidate (users : list user)
    (tstamps : list Z) (fcounts : list R) (curr : Z) (gamma alpha xmin : R)
    (s s' : state G) (p : user) :
  get_who_rtd_whom Q G users tstamps fcounts curr gamma alpha xmin s
  = Ok (p, s') ->
  In p users
  /\ s' = snd (random_sample G s)
  /\ exists ps,
       indiv_probs Q tstamps fcounts curr gamma alpha xmin = Ok (map Fin ps)
       /\ length ps = length users
       /\ Forall (fun x => 0 <= x) ps
       /\ Rabs (np_sum ps - 1) <= atol.
Proof.
  unfold get_who_rtd_whom, bind, lift.
  destruct (indiv_probs Q tstamps fcounts curr gamma alpha xmin) as [v|e];
    [|discriminate].
  intros H. apply choice_inv in H.
  destruct H as [Hin [Hs [ps [-> Hrest]]]].
  split; [exact Hin|]. split; [exact Hs|]. exists ps. split; [reflexivity|].
  exact Hrest.
Qed.

(** X2.  Without candidate users the engine never returns a parent: it
    raises, whatever the other arguments are. *)
Theorem get_who_rtd_whom_no_candidate (tstamps : list Z) (fcounts : list R)
    (curr : Z) (gamma alpha xmin : R) (s : state G) :
  exists e,
    get_who_rtd_whom Q G (@nil user) tstamps fcounts curr gamma alpha xmin s
    = Raise e.
Proof.
  unfold get_who_rtd_whom, bind, lift.
  destruct (indiv_probs Q tstamps fcounts curr gamma alpha xmin) as [v|e].
  - exists ValueError. reflexivity.
  - exists e. reflexivity.
Qed.

(** X3.  The draw is a weighted one.  When the vector handed to the sampler
    is valid, the engine returns the candidate at the position k for which
    the uniform sample u, scaled by the sum of the vector, falls between the
    sum of the first k entries (included) and the sum of the first k + 1
    entries (excluded): candidate k is drawn on an interval of samples whose
    length is its share of the vector. *)
Theorem get_who_rtd_whom_inverse_cdf (users : list user) (tstamps : list Z)
    (fcounts : list R) (curr : Z) (gamma alpha xmin : R) (s : state G)
    (ps : list R) :
  users <> [] -> length ps = length users ->
  indiv_probs Q tstamps fcounts curr gamma alpha xmin = Ok (map Fin ps) ->
  Forall (fun x => 0 <= x) ps -> Rabs (np_sum ps - 1) <= atol ->
  exists k x,
    get_who_rtd_whom Q G users tstamps fcounts curr gamma alpha xmin s
    = Ok (x, snd (random_sample G s))
    /\ nth_error users k = Some x
    /\ np_sum (firstn k ps) <= fst (random_sample G s) * np_sum ps
    /\ fst (random_sample G s) * np_sum ps < np_sum (firstn (S k) ps).
Proof.
  intros Hne Hlen Hp Hpos Hsum.
  destruct (choice_ok user G users ps s Hne Hlen Hpos Hsum) as [x [Hx _]].
  unfold get_who_rtd_whom, bind, lift. rewrite Hp.
  pose proof atol_bounds as Hat.
  assert (HS : 0 < np_sum ps).
  { destruct (Rcase_abs (np_sum ps - 1)) as [Hc|Hc].
    - rewrite (Rabs_left _ Hc) in Hsum; lra.
    - rewrite (Rabs_right _ Hc) in Hsum; lra. }
  assert (Hps : ps <> []).
  { destruct ps; [|discriminate]. destruct users; [congruence|discriminate]. }
  revert Hx. unfold choice.
  destruct (length users =? 0)%nat; [discriminate|].
  destruct (negb _); [discriminate|].
  rewrite finite_values_Fin.
  destruct (has_negative ps); [discriminate|].
  destruct (Rlt_dec atol (Rabs (np_sum ps - 1))); [discriminate|].
  pose proof (random_sample_range G s) as Hu.
  destruct (random_sample G s) as [u s1]. simpl fst in *. simpl snd.
  set (cdf := map (fun c => c / last (cumsum 0 ps) 0) (cumsum 0 ps)).
  destruct (nth_error users (searchsorted_right cdf u)) as [y|] eqn:Hy;
    [|discriminate].
  intros Hx. injection Hx as ->.
  exists (searchsorted_right cdf u), x.
  split; [reflexivity|]. split; [exact Hy|].
  destruct (searchsorted_right_spec cdf u) as [Hlo Hhi].
  assert (Hlast : last (cumsum 0 ps) 0 = np_sum ps)
    by (rewrite cumsum_last by assumption; lra).
  assert (Hk : (searchsorted_right cdf u < length cdf)%nat).
  { assert (Hn : nth_error users (searchsorted_right cdf u) <> None)
      by congruence.
    apply nth_error_Some in Hn.
    unfold cdf at 2. rewrite length_map, cumsum_length, Hlen. exact Hn. }
  assert (Hentry : forall j, (j < length cdf)%nat ->
            nth_error cdf j = Some (np_sum (firstn (S j) ps) / np_sum ps)).
  { intros j Hj. unfold cdf in Hj |- *. rewrite length_map in Hj.
    rewrite nth_error_map.
    destruct (nth_error (cumsum 0 ps) j) as [c|] eqn:Hc;
      [|apply nth_error_None in Hc; lia].
    apply cumsum_nth in Hc. cbn [option_map]. rewrite Hlast, Hc.
    do 2 f_equal. lra. }
  split.
  - destruct (searchsorted_right cdf u) as [|k] eqn:Ek.
    + rewrite firstn_O. simpl. nra.
    + assert (Hle := Hlo k _ (Nat.lt_succ_diag_r k) (Hentry k ltac:(lia))).
      apply (Rmult_le_compat_r (np_sum ps)) in Hle; [|lra].
      replace (np_sum (firstn (S k) ps) / np_sum ps * np_sum ps)
        with (np_sum (firstn (S k) ps)) in Hle by (field; lra).
      exact Hle.
  - assert (Hlt := Hhi _ (Hentry _ Hk)).
    apply (Rmult_lt_compat_r (np_sum ps)) in Hlt; [|lra].
    replace (np_sum (firstn (S (searchsorted_right cdf u)) ps) / np_sum ps
             * np_sum ps)
      with (np_sum (firstn (S (searchsorted_right cdf u)) ps)) in Hlt
      by (field; lra).
    exact Hlt.
Qed.

End EngineFacts.

Lemma get_who_rtd_whom_returns_candidate_witness :
  exists p,
    get_who_rtd_whom midpoint halves [0%nat; 1%nat] [0%Z; 10%Z] [50; 100] 20
      (1 / 2) 2 1 0%nat = Ok (p, 1%nat)
    /\ In p [0%nat; 1%nat].
Proof.
  destruct (get_who_rtd_whom_ok nat midpoint halves [0%nat; 1%nat]
              [0%Z; 10%Z] [50; 100] 20 (1 / 2) 2 1 0%nat) as [p [Hp _]];
    [discriminate|reflexivity|reflexivity|repeat constructor; lia
    |repeat constructor; lra|simpl; lra|lra|lra|lra|].
  exists p. split; [exact Hp|].
  exact (proj1 (get_who_rtd_whom_returns_candidate nat midpoint halves
                  _ _ _ _ _ _ _ _ _ _ Hp)).
Defined.

Lemma get_who_rtd_whom_inverse_cdf_witness :
  exists k x,
    get_who_rtd_whom midpoint halves [0%nat; 1%nat] [0%Z; 0%Z] [1; 3] 10
      (1 / 4) 2 1 0%nat = Ok (x, 1%nat)
    /\ nth_error [0%nat; 1%nat] k = Some x.
Proof.
  destruct (tdiff_probs_pair midpoint) as [d [Hd Hds]].
  destruct (get_who_rtd_whom_inverse_cdf nat midpoint halves [0%nat; 1%nat]
              [0%Z; 0%Z] [1; 3] 10 (1 / 4) 2 1 0%nat
              (p_final (1 / 4) (p_audience [1; 3]) (p_time [d; d])))
    as [k [x [Hx [Hk _]]]].
  - discriminate.
  - reflexivity.
  - apply indiv_probs_Fin; [reflexivity|exact Hds|simpl; lra|simpl; lra].
  - unfold p_final, p_audience, p_time. simpl.
    replace (d / (d + (d + 0))) with (1 / 2) by (field; lra).
    repeat constructor; lra.
  - unfold p_final, p_audience, p_time. simpl.
    replace (d / (d + (d + 0))) with (1 / 2) by (field; lra).
    replace (1 / 4 * (1 / (1 + (3 + 0))) + (1 - 1 / 4) * (1 / 2)
             + (1 / 4 * (3 / (1 + (3 + 0))) + (1 - 1 / 4) * (1 / 2) + 0) - 1)
      with 0 by lra.
    rewrite Rabs_R0. pose proof atol_bounds; lra.
  - exists k, x. split; assumption.
Defined.

(** ** Decay with the time gap *)

Lemma rmap_ok_map {A B : Type} (f : A -> result B) (g : A -> B) (l : list A) :
  (forall a, In a l -> f a = Ok (g a)) -> rmap f l = Ok (map g l).
Proof.
  induction l as [|a l IH]; intros H; simpl; [reflexivity|].
  rewrite (H a (or_introl eq_refl)); simpl.
  rewrite IH by (intros; apply H; right; assumption). reflexivity.
Qed.

Lemma Forall2_nth_error_l {A B : Type} (P : A -> B -> Prop) (l1 : list A)
    (l2 : list B) (i : nat) (a : A) :
  Forall2 P l1 l2 -> nth_error l1 i = Some a ->
  exists b, nth_error l2 i = Some b /\ P a b.
Proof.
  intros H; revert i; induction H as [|a0 b0 l1 l2 Hab _ IH]; intros i Hi.
  - destruct i; discriminate.
  - destruct i as [|i]; simpl in *.
    + injection Hi as <-. exists b0; split; [reflexivity|assumption].
    + apply IH; assumption.
Qed.

Lemma power_law_density_strict (alpha xmin x y : R) :
  1 < alpha -> 0 < xmin -> 0 < x -> x < y ->
  power_law_density alpha xmin y < power_law_density alpha xmin x.
Proof.
  intros Ha Hm Hx Hxy; unfold power_law_density.
  apply Rmult_lt_compat_l.
  - apply Rdiv_lt_0_compat; lra.
  - apply Rlt_Rpower_l; [lra|]. split.
    + apply Rdiv_lt_0_compat; lra.
    + unfold Rdiv. apply Rmult_lt_compat_l; [lra|].
      apply Rinv_lt_contravar; [nra|assumption].
Qed.

Lemma weighted_sum_strict (g1 g2 : R * R -> R) (l : list (R * R)) :
  l <> [] -> Forall (fun nw => 0 < snd nw) l ->
  (forall nw, In nw l -> g2 nw < g1 nw) ->
  np_sum (map (fun nw => snd nw * g2 nw) l)
  < np_sum (map (fun nw => snd nw * g1 nw) l).
Proof.
  intros Hne Hw Hg.
  assert (Hle : forall l', Forall (fun nw => 0 < snd nw) l' ->
            (forall nw, In nw l' -> g2 nw < g1 nw) ->
            np_sum (map (fun nw => snd nw * g2 nw) l')
            <= np_sum (map (fun nw => snd nw * g1 nw) l')).
  { induction l' as [|nw l' IH]; intros Hw' Hg'; simpl; [lra|].
    inversion Hw' as [|? ? Hw0 Hw1]; subst.
    pose proof (Hg' nw (or_introl eq_refl)).
    assert (np_sum (map (fun nw => snd nw * g2 nw) l')
            <= np_sum (map (fun nw => snd nw * g1 nw) l'))
      by (apply IH; [assumption|intros; apply Hg'; right; assumption]).
    nra. }
  destruct l as [|nw l]; [congruence|]. simpl.
  inversion Hw as [|? ? Hw0 Hw1]; subst.
  pose proof (Hg nw (or_introl eq_refl)).
  assert (np_sum (map (fun nw => snd nw * g2 nw) l)
          <= np_sum (map (fun nw => snd nw * g1 nw) l))
    by (apply Hle; [assumption|intros; apply Hg; right; assumption]).
  nra.
Qed.

(** The value of [power_law] on a window of positive numbers, written out. *)
Lemma power_law_explicit (Q : quadrature) (z alpha xmin : R) :
  1 < alpha -> 0 < xmin -> epsilon < z ->
  power_law Q z alpha xmin
  = Ok (epsilon
        * np_sum (map (fun nw => snd nw
                         * power_law_density alpha xmin (z + epsilon * fst nw))
                    (rule Q)),
        abserr Q (power_law_integrand alpha xmin) (z - epsilon) (z + epsilon)).
Proof.
  intros Ha Hm Hz. pose proof epsilon_pos as He.
  unfold power_law, quad.
  rewrite (rmap_ok_map _
             (fun nw => snd nw
                * power_law_density alpha xmin (z + epsilon * fst nw))).
  - simpl. do 2 f_equal. lra.
  - intros [x w] Hin. simpl.
    pose proof (proj1 (Forall_forall _ _) (rule_nodes Q) _ Hin) as Hx.
    simpl in Hx.
    replace ((z - epsilon + (z + epsilon)) / 2
             + (z + epsilon - (z - epsilon)) / 2 * x)
      with (z + epsilon * x) by lra.
    rewrite power_law_integrand_ok by (try assumption; nra).
    reflexivity.
Qed.

Section DecayFacts.

Variable Q : quadrature.



End DecayFacts.



(** ** The exponent 1 *)

Lemma power_law_alpha_one (Q : quadrature) (z xmin : R) :
  0 < xmin -> epsilon < z ->
  exists e, power_law Q z 1 xmin = Ok (0, e).
Proof.
  intros Hm Hz. pose proof epsilon_pos as He. unfold power_law.
  destruct (quad_bounds Q (power_law_integrand 1 xmin)
              (z - epsilon) (z + epsilon) 0 0) as [v [Hv Hb]].
  - lra.
  - intros x Hx. exists ((1 - 1) / xmin * Rpower (xmin / x) 1).
    split.
    + unfold power_law_integrand.
      rewrite py_div_ok by lra; simpl. rewrite py_div_ok by lra; simpl.
      rewrite py_pow_pos; [reflexivity| |lra].
      apply Rdiv_lt_0_compat; lra.
    + replace ((1 - 1) / xmin) with 0 by (field; lra). lra.
  - assert (v = 0) by lra. subst v. eexists. exact Hv.
Qed.

Lemma choice_empty_vector {user : Type} (G : generator) (a : list user)
    (s : state G) :
  choice G a [] s = Raise ValueError.
Proof.
  unfold choice. destruct a as [|x a]; reflexivity.
Qed.

Lemma np_array_add_NaN_r (xs ys : list npfloat) :
  ys <> [] -> Forall (fun y => y = NaN) ys ->
  np_array_add xs ys = Raise ValueError
  \/ np_array_add xs ys = Ok []
  \/ exists p, np_array_add xs ys = Ok p /\ finite_values p = None.
Proof.
  intros Hne Hnan. unfold np_array_add.
  assert (Hadd : forall x y, y = NaN -> np_add x y = NaN)
    by (intros x y ->; destruct x; reflexivity).
  destruct (length xs =? length ys)%nat eqn:E.
  - right. right. eexists; split; [reflexivity|].
    apply Nat.eqb_eq in E.
    destruct Hnan as [|y ys Hy _]; [congruence|].
    destruct xs as [|x xs]; [discriminate|]. simpl.
    rewrite (Hadd x y Hy). reflexivity.
  - destruct xs as [|x [|x' xs]].
    + destruct ys as [|y [|y' ys]]; [congruence| |left; reflexivity].
      right. left. reflexivity.
    + right. right. eexists; split; [reflexivity|].
      destruct Hnan as [|y ys Hy _]; [congruence|]. simpl.
      rewrite (Hadd x y Hy). reflexivity.
    + destruct ys as [|y [|y' ys]]; [congruence| |left; reflexivity].
      right. right. eexists; split; [reflexivity|].
      inversion Hnan; subst. simpl. rewrite (Hadd x NaN eq_refl). reflexivity.
Qed.

Section ExponentOne.

Variable user : Type.
Variable Q : quadrature.
Variable G : generator.

(** X6.  With alpha = 1 (xmin > 0, at least one candidate timestamp, none
    later than the current event) every density is 0, the normalisation is
    0/0, and the engine raises [ValueError], whatever the users, the
    audience sizes and gamma are. *)
Theorem alpha_one_raises (users : list user) (tstamps : list Z)
    (fcounts : list R) (curr : Z) (gamma xmin : R) (s : state G) :
  tstamps <> [] -> Forall (fun t => (t <= curr)%Z) tstamps -> 0 < xmin ->
  tdiff_probs Q curr tstamps 1 xmin = Ok (repeat 0 (length tstamps))
  /\ get_who_rtd_whom Q G users tstamps fcounts curr gamma 1 xmin s
     = Raise ValueError.
Proof.
  intros Hne Hts Hm.
  assert (Hds : tdiff_probs Q curr tstamps 1 xmin
                = Ok (repeat 0 (length tstamps))).
  { unfold tdiff_probs, time_diffs.
    rewrite <- (length_map (fun t => (curr - t)%Z) tstamps).
    apply rmap_const. intros g Hg. apply in_map_iff in Hg.
    destruct Hg as [t [<- Ht]].
    pose proof (proj1 (Forall_forall _ _) Hts t Ht) as Hle.
    destruct (shifted_gap_window curr t Hle) as [_ Hwin].
    destruct (power_law_alpha_one Q (IZR (curr - t) + 1 / 10) xmin Hm)
      as [e He]; [lra|].
    rewrite He. reflexivity. }
  split; [exact Hds|].
  unfold get_who_rtd_whom, bind, lift, indiv_probs, norm_tstamp_prob_array.
  rewrite Hds. simpl rbind.
  rewrite map_repeat, np_sum_repeat.
  replace (INR (length tstamps) * 0) with 0 by lra.
  rewrite np_true_divide_zero_zero.
  unfold np_scalar_mul at 2. rewrite map_repeat.
  change (np_mul (Fin (1 - gamma)) NaN) with NaN.
  destruct (np_array_add_NaN_r
              (np_scalar_mul gamma (fcount_probabilities fcounts))
              (repeat NaN (length tstamps)))
    as [Hr|[Hr|[p [Hr Hp]]]].
  - destruct tstamps; [congruence|discriminate].
  - apply Forall_forall. intros y Hy. apply repeat_spec in Hy. exact Hy.
  - rewrite Hr. reflexivity.
  - rewrite Hr. apply choice_empty_vector.
  - rewrite Hr. apply choice_not_finite. exact Hp.
Qed.

End ExponentOne.

Lemma alpha_one_raises_witness :
  get_who_rtd_whom midpoint halves [0%nat; 1%nat] [0%Z; 10%Z] [50; 100] 20
    (1 / 2) 1 1 0%nat = Raise ValueError.
Proof.
  apply (alpha_one_raises nat midpoint halves);
    [discriminate|repeat constructor; lia|lra].
Defined.

(** * Further properties of the driver *)

Section DriverFacts.

Variable user : Type.
Variable Q : quadrature.
Variable G : generator.

Lemma get_who_rtd_whom_state (users : list user) (tstamps : list Z)
    (fcounts : list R) (curr : Z) (gamma alpha xmin : R)
    (s s' : state G) (p : user) :
  get_who_rtd_whom Q G users tstamps fcounts curr gamma alpha xmin s
  = Ok (p, s') ->
  s' = snd (random_sample G s).
Proof.
  unfold get_who_rtd_whom, bind, lift.
  destruct (indiv_probs Q tstamps fcounts curr gamma alpha xmin) as [v|e];
    [|discriminate].
  intros H. apply choice_inv in H. tauto.
Qed.

(** With fewer than two users the driver raises [IndexError] when it builds
    the first edge. *)
Lemma entire_cascade_reconstruction_short (users : list user)
    (tstamps : list Z) (fcounts : list R) (gamma alpha xmin : R)
    (s : state G) :
  (length users < 2)%nat ->
  entire_cascade_reconstruction Q G users tstamps fcounts gamma alpha xmin s
  = Raise IndexError.
Proof.
  intros Hlen. unfold entire_cascade_reconstruction, bind, lift, py_index.
  destruct users as [|a [|b l]]; simpl in *; try reflexivity. lia.
Qed.

(** X7.  With two users or more and at most two timestamps the driver
    returns the single edge (first user, second user); it calls the engine
    at no time, draws nothing from the generator, and gamma, alpha, xmin and
    the audience sizes play no part. *)
Theorem entire_cascade_reconstruction_pair (users : list user)
    (tstamps : list Z) (fcounts : list R) (gamma alpha xmin : R)
    (s : state G) (root first_rt : user) :
  nth_error users 0 = Some root -> nth_error users 1 = Some first_rt ->
  (length tstamps <= 2)%nat ->
  entire_cascade_reconstruction Q G users tstamps fcounts gamma alpha xmin s
  = Ok ([(root, first_rt)], s).
Proof.
  intros Hroot Hfirst Hlen.
  unfold entire_cascade_reconstruction, bind, lift, py_index, range.
  rewrite Hroot, Hfirst.
  replace (length tstamps - 2)%nat with 0%nat by lia. reflexivity.
Qed.

Lemma reconstruction_step_raise (users : list user) (tstamps : list Z)
    (fcounts : list R) (gamma alpha xmin : R) (edge_list : list (edge user))
    (idx : nat) (s : state G) (e : exn) :
  reconstruction_step Q G users tstamps fcounts gamma alpha xmin
    edge_list idx s = Raise e ->
  ((nth_error tstamps idx = None \/ nth_error users idx = None)
   /\ e = IndexError)
  \/ exists ts,
       nth_error tstamps idx = Some ts
       /\ engine_call Q G users tstamps fcounts gamma alpha xmin idx ts s
          = Raise e.
Proof.
  unfold reconstruction_step, engine_call, bind, lift, py_index, ret.
  destruct (nth_error tstamps idx) as [ts|];
    [|intros H; injection H as <-; left; split; [left|]; reflexivity].
  destruct (nth_error users idx) as [u|];
    [|intros H; injection H as <-; left; split; [right|]; reflexivity].
  destruct (get_who_rtd_whom Q G _ _ _ ts gamma alpha xmin s) as [[p s1]|e0]
    eqn:Hp; [discriminate|].
  intros H; injection H as <-. right. exists ts. split; [reflexivity|exact Hp].
Qed.

Lemma for_each_raise (users : list user) (tstamps : list Z)
    (fcounts : list R) (gamma alpha xmin : R) (len start : nat)
    (edge_list : list (edge user)) (s : state G) (e : exn) :
  for_each G (reconstruction_step Q G users tstamps fcounts gamma alpha xmin)
    (seq start len) edge_list s = Raise e ->
  exists i s_i,
    (start <= i < start + len)%nat
    /\ (((nth_error tstamps i = None \/ nth_error users i = None)
         /\ e = IndexError)
        \/ exists ts,
             nth_error tstamps i = Some ts
             /\ engine_call Q G users tstamps fcounts gamma alpha xmin i ts s_i
                = Raise e).
Proof.
  revert start edge_list s.
  induction len as [|len IH]; intros start edge_list s H; simpl in H;
    [discriminate|].
  unfold bind in H.
  destruct (reconstruction_step Q G users tstamps fcounts gamma alpha xmin
              edge_list start s) as [[el1 s1]|e0] eqn:Hstep.
  - apply IH in H. destruct H as [i [s_i [Hi Hcase]]].
    exists i, s_i. split; [lia|exact Hcase].
  - injection H as <-. apply reconstruction_step_raise in Hstep.
    exists start, s. split; [lia|exact Hstep].
Qed.

(** X8.  A run on a cascade of fewer than two rows raises [IndexError].
    To a longer cascade the driver adds no failure of its own: when a run
    raises, the exception is the one that the engine raised at some
    position i >= 2, called with the rows before i as candidates and the
    date of row i. *)
Theorem reconstruct_raises_from_engine (cascade_frame : list (tweet user))
    (gamma alpha xmin : R) (s : state G) :
  ((length cascade_frame < 2)%nat ->
   reconstruct Q G cascade_frame gamma alpha xmin s = Raise IndexError)
  /\ forall e,
       (2 <= length cascade_frame)%nat ->
       reconstruct Q G cascade_frame gamma alpha xmin s = Raise e ->
       exists i tw s_i,
         (2 <= i)%nat /\ nth_error cascade_frame i = Some tw
         /\ get_who_rtd_whom Q G
              (map tid (firstn i cascade_frame))
              (map tweet_date (firstn i cascade_frame))
              (map user_followers (firstn i cascade_frame))
              (tweet_date tw) gamma alpha xmin s_i
            = Raise e.
Proof.
  split.
  - intros Hlen. unfold reconstruct.
    apply entire_cascade_reconstruction_short. rewrite length_map. exact Hlen.
  - intros e HL H. unfold reconstruct in H.
    destruct cascade_frame as [|r [|f rest]]; simpl in HL; try lia.
    set (frame := r :: f :: rest) in *.
    unfold entire_cascade_reconstruction, bind, lift, py_index, range in H.
    change (nth_error (map tid frame) 0) with (Some (tid r)) in H.
    change (nth_error (map tid frame) 1) with (Some (tid f)) in H.
    apply for_each_raise in H.
    destruct H as [i [s_i [Hi Hcase]]]. rewrite length_map in Hi.
    assert (Hlt : (i < length frame)%nat) by lia.
    destruct (nth_error frame i) as [tw|] eqn:Htw;
      [|apply nth_error_None in Htw; lia].
    exists i, tw, s_i. split; [lia|]. split; [exact Htw|].
    destruct Hcase as [[Hnone _]|[ts [Hts Hcall]]].
    + rewrite !nth_error_map, Htw in Hnone. simpl in Hnone.
      destruct Hnone; discriminate.
    + rewrite nth_error_map, Htw in Hts. simpl in Hts. injection Hts as <-.
      unfold engine_call in Hcall. rewrite !firstn_map in Hcall. exact Hcall.
Qed.

(** X9.  A run that returns has drawn exactly one sample per engine call,
    that is as many samples as there are timestamps beyond the second. *)
Theorem entire_cascade_reconstruction_samples (users : list user)
    (tstamps : list Z) (fcounts : list R) (gamma alpha xmin : R)
    (s s' : state G) (edge_list : list (edge user)) :
  entire_cascade_reconstruction Q G users tstamps fcounts gamma alpha xmin s
  = Ok (edge_list, s') ->
  s' = Nat.iter (length tstamps - 2) (fun s0 => snd (random_sample G s0)) s.
Proof.
  intros H. apply entire_cascade_reconstruction_inv in H.
  destruct H as [root [first_rt [new_edges [_ [_ [_ Htrace]]]]]].
  destruct Htrace as [_ [st [Hst0 [Hst1 Hall]]]].
  assert (Hk : forall k, (k <= length tstamps - 2)%nat ->
            st (2 + k)%nat
            = Nat.iter k (fun s0 => snd (random_sample G s0)) s).
  { induction k as [|k IH]; intros Hle.
    - simpl. exact Hst0.
    - destruct (Hall (2 + k)%nat) as [ts [u [p [_ [_ [Hp _]]]]]]; [lia|].
      unfold engine_call in Hp. apply get_who_rtd_whom_state in Hp.
      replace (2 + S k)%nat with (S (2 + k)) by lia.
      rewrite Hp, IH by lia. reflexivity. }
  rewrite <- Hst1. apply Hk. lia.
Qed.

End DriverFacts.

Lemma entire_cascade_reconstruction_pair_witness :
  reconstruct midpoint halves cascade_pair (1 / 2) 2 1 0%nat
  = Ok ([(0%nat, 1%nat)], 0%nat).
Proof.
  apply (entire_cascade_reconstruction_pair nat midpoint halves);
    [reflexivity|reflexivity|simpl; lia].
Defined.

Lemma reconstruct_raises_from_engine_witness :
  exists i tw s_i,
    (2 <= i)%nat /\ nth_error cascade_no_audience i = Some tw
    /\ get_who_rtd_whom midpoint halves
         (map tid (firstn i cascade_no_audience))
         (map tweet_date (firstn i cascade_no_audience))
         (map user_followers (firstn i cascade_no_audience))
         (tweet_date tw) (1 / 2) 2 1 s_i
       = Raise ValueError.
Proof.
  apply (proj2 (reconstruct_raises_from_engine nat midpoint halves
                  cascade_no_audience (1 / 2) 2 1 0%nat) ValueError).
  - simpl; lia.
  - unfold reconstruct, entire_cascade_reconstruction, bind, lift, py_index,
      range.
    cbn [cascade_no_audience map nth_error length Nat.sub seq for_each
         tid tweet_date user_followers].
    unfold bind, reconstruction_step, bind, lift, py_index.
    cbn [nth_error firstn].
    rewrite get_who_rtd_whom_zero_audience; try reflexivity; try lra.
    + discriminate.
    + repeat constructor.
    + repeat constructor; lia.
Defined.

Lemma entire_cascade_reconstruction_samples_witness :
  exists edge_list,
    reconstruct midpoint halves cascade_abc (1 / 2) 2 1 0%nat
    = Ok (edge_list, 1%nat).
Proof.
  destruct (reconstruct_ok nat midpoint halves cascade_abc (1 / 2) 2 1 0%nat)
    as [edge_list [s' Hrun]];
    [simpl; lia|simpl; repeat constructor; lia
    |unfold cascade_abc; repeat constructor; simpl; lra
    |simpl; lra|lra|lra|lra|].
  exists edge_list.
  pose proof (entire_cascade_reconstruction_samples nat midpoint halves
                _ _ _ _ _ _ _ _ _ Hrun) as Hs.
  simpl in Hs. rewrite <- Hs. exact Hrun.
Defined.

(** ** The vertex set *)

Section Vertices.

Variable user : Type.
Variable user_eq_dec : forall x y : user, {x = y} + {x <> y}.

Lemma fold_vertices_In (edge_list : list (user * user)) (acc : set user)
    (v : user) :
  set_In v (fold_left (fun vertices e =>
                         set_add user_eq_dec (snd e)
                           (set_add user_eq_dec (fst e) vertices))
                      edge_list acc)
  <-> set_In v acc
      \/ exists p c, In (p, c) edge_list /\ (v = p \/ v = c).
Proof.
  revert acc; induction edge_list as [|[p c] l IH]; intros acc; simpl.
  - split; [intros H; left; exact H|].
    intros [H|[p [c [[] _]]]]. exact H.
  - rewrite IH. split.
    + intros [H|[p' [c' [Hin Hv]]]].
      * apply set_add_elim in H. destruct H as [->|H].
        -- right. exists p, c. split; [left; reflexivity|right; reflexivity].
        -- apply set_add_elim in H. destruct H as [->|H].
           ++ right. exists p, c. split; [left; reflexivity|left; reflexivity].
           ++ left. exact H.
      * right. exists p', c'. split; [right; exact Hin|exact Hv].
    + intros [H|[p' [c' [[Heq|Hin] Hv]]]].
      * left. apply set_add_intro1, set_add_intro1. exact H.
      * injection Heq as <- <-. left. destruct Hv as [->| ->].
        -- apply set_add_intro1, set_add_intro2. reflexivity.
        -- apply set_add_intro2. reflexivity.
      * right. exists p', c'. split; assumption.
Qed.

Lemma fold_vertices_NoDup (edge_list : list (user * user)) (acc : set user) :
  NoDup acc ->
  NoDup (fold_left (fun vertices e =>
                      set_add user_eq_dec (snd e)
                        (set_add user_eq_dec (fst e) vertices))
                   edge_list acc).
Proof.
  revert acc; induction edge_list as [|e l IH]; intros acc H; simpl;
    [exact H|].
  apply IH. apply set_add_nodup, set_add_nodup. exact H.
Qed.

Variable Q : quadrature.
Variable G : generator.

(** X10.  The vertex set that the main block builds from an edge list
    returned by the driver holds every actor of the cascade and nothing
    else, each of them once. *)
Theorem all_vertices_are_the_actors (cascade_frame : list (tweet user))
    (gamma alpha xmin : R) (s s' : state G) (edge_list : list (edge user)) :
  reconstruct Q G cascade_frame gamma alpha xmin s = Ok (edge_list, s') ->
  NoDup (all_vertices user_eq_dec edge_list)
  /\ forall v,
       set_In v (all_vertices user_eq_dec edge_list)
       <-> In v (map tid cascade_frame).
Proof.
  intros Hrun. unfold reconstruct in Hrun.
  pose proof Hrun as Hinv. apply entire_cascade_reconstruction_inv in Hinv.
  destruct Hinv as [root [first_rt [new_edges [Hroot [Hfirst [Hel _]]]]]].
  apply driver_edge_shape in Hrun; [|rewrite !length_map; reflexivity].
  split; [apply fold_vertices_NoDup; constructor|].
  intros v. unfold all_vertices. rewrite fold_vertices_In. split.
  - intros [[]|[p [c [Hin Hv]]]].
    destruct (edge_positions user _ _ Hrun p c Hin) as [i [j [_ [Hi Hj]]]].
    destruct Hv as [->| ->]; eapply nth_error_In; eassumption.
  - intros Hv. right. apply In_nth_error in Hv. destruct Hv as [i Hi].
    destruct i as [|k].
    + rewrite Hroot in Hi. injection Hi as <-.
      exists root, first_rt. split; [rewrite Hel; left; reflexivity|].
      left; reflexivity.
    + destruct Hrun as [_ Hall].
      destruct (Hall k v Hi) as [p [j [Hk _]]].
      exists p, v. split; [eapply nth_error_In; exact Hk|right; reflexivity].
Qed.

End Vertices.

Lemma all_vertices_are_the_actors_witness :
  exists edge_list,
    forall v,
      set_In v (all_vertices Nat.eq_dec edge_list)
      <-> In v [0%nat; 1%nat; 2%nat].
Proof.
  destruct (reconstruct_ok nat midpoint halves cascade_abc (1 / 2) 2 1 0%nat)
    as [edge_list [s' Hrun]];
    [simpl; lia|simpl; repeat constructor; lia
    |unfold cascade_abc; repeat constructor; simpl; lra
    |simpl; lra|lra|lra|lra|].
  exists edge_list.
  exact (proj2 (all_vertices_are_the_actors nat Nat.eq_dec midpoint halves
                  cascade_abc (1 / 2) 2 1 0%nat s' edge_list Hrun)).
Defined.

(** * The random reconstruction *)

Section RandomReconstruction.

Variable user : Type.
Variable H : int_generator.

Lemma uniform_choice_ok (a : list user) (s : int_state H) :
  a <> [] ->
  exists x, uniform_choice H a s = Ok (x, snd (randint H s (length a)))
            /\ In x a.
Proof.
  intros Hne. unfold uniform_choice.
  destruct a as [|a0 a']; [congruence|].
  change (length (a0 :: a') =? 0)%nat with false. cbv iota.
  pose proof (randint_range H s (length (a0 :: a')) ltac:(simpl; lia)) as Hr.
  destruct (randint H s (length (a0 :: a'))) as [idx s1]. simpl in Hr.
  destruct (nth_error (a0 :: a') idx) as [x|] eqn:Hx.
  - exists x. split; [reflexivity|]. exact (nth_error_In _ _ Hx).
  - apply nth_error_None in Hx. simpl in Hx. lia.
Qed.

Lemma random_loop_ok (users : list user) (len start : nat)
    (edge_list : list (user * user)) (s : int_state H) :
  (1 <= start)%nat -> (start + len <= length users)%nat ->
  exists new_edges s',
    random_loop H users (seq start len) edge_list s
    = Ok (edge_list ++ new_edges, s')
    /\ length new_edges = len
    /\ forall i c, (start <= i < start + len)%nat ->
         nth_error users i = Some c ->
         exists p j, nth_error new_edges (i - start) = Some (p, c)
                     /\ (j < i)%nat /\ nth_error users j = Some p.
Proof.
  revert start edge_list s.
  induction len as [|len IH]; intros start edge_list s Hstart Hlen; simpl.
  - exists [], s. rewrite app_nil_r. split; [reflexivity|].
    split; [reflexivity|]. intros i c Hi; lia.
  - destruct (uniform_choice_ok (firstn start users) s) as [p [Hp Hin]].
    { intros Hnil. apply (f_equal (@length user)) in Hnil.
      rewrite length_firstn in Hnil. simpl in Hnil. lia. }
    rewrite Hp. unfold py_index.
    destruct (nth_error users start) as [c0|] eqn:Hc0;
      [|apply nth_error_None in Hc0; lia].
    destruct (IH (S start) (edge_list ++ [(p, c0)])
                (snd (randint H s (length (firstn start users)))))
      as [rest [s' [Hrun [Hrl Hall]]]]; [lia|lia|].
    exists ((p, c0) :: rest), s'.
    rewrite Hrun, <- app_assoc. split; [reflexivity|].
    split; [simpl; rewrite Hrl; reflexivity|].
    intros i c Hi Hc. destruct (Nat.eq_dec i start) as [->|Hne].
    + rewrite Hc0 in Hc. injection Hc as <-.
      apply In_firstn_position in Hin. destruct Hin as [j [Hj Hpj]].
      exists p, j. rewrite Nat.sub_diag. repeat split; assumption.
    + destruct (Hall i c) as [p' [j [Hnth Hj]]]; [lia|exact Hc|].
      exists p', j.
      replace (i - start)%nat with (S (i - S start)) by lia.
      split; [exact Hnth|exact Hj].
Qed.

(** On two users or more the random reconstruction returns, with the
    shape of [edge_shape]. *)
Lemma generate_random_reconstruction_ok (users : list user)
    (s : int_state H) :
  (2 <= length users)%nat ->
  exists edge_list s',
    generate_random_reconstruction H users s = Ok (edge_list, s')
    /\ edge_shape users edge_list.
Proof.
  intros HL. unfold generate_random_reconstruction, py_index, range.
  destruct users as [|r [|f rest]]; simpl in HL; try lia.
  cbn [nth_error].
  destruct (random_loop_ok (r :: f :: rest) (length (r :: f :: rest) - 2) 2
              [(r, f)] s) as [new_edges [s' [Hrun [Hlen Hall]]]];
    [lia|simpl; lia|].
  exists ([(r, f)] ++ new_edges), s'. split; [exact Hrun|].
  split; [unfold edge in *; simpl in *; lia|].
  intros k c Hc. destruct k as [|k].
  - simpl in Hc. injection Hc as <-. exists r, 0%nat.
    repeat split. lia.
  - assert (Hk : (S (S k) < length (r :: f :: rest))%nat)
      by (apply nth_error_Some; congruence).
    destruct (Hall (S (S k)) c) as [p [j [Hnth [Hj Hp]]]];
      [simpl in *; lia|exact Hc|].
    exists p, j. simpl in Hnth. rewrite Nat.sub_0_r in Hnth.
    repeat split; [exact Hnth|lia|exact Hp].
Qed.

Lemma generate_random_reconstruction_short (users : list user)
    (s : int_state H) :
  (length users < 2)%nat ->
  generate_random_reconstruction H users s = Raise IndexError.
Proof.
  intros Hlen. unfold generate_random_reconstruction, py_index.
  destruct users as [|a [|b l]]; simpl in *; try reflexivity. lia.
Qed.

(** X11.  The random reconstruction fails on fewer than two users, with
    [IndexError], and on no other input.  On two users or more it returns
    one edge per user after the first, the edge at position k made of a
    user at a position up to k and of the user at position k + 1; with
    distinct users that list is a tree rooted at the first user. *)
Theorem generate_random_reconstruction_tree (users : list user)
    (s : int_state H) :
  ((length users < 2)%nat ->
   generate_random_reconstruction H users s = Raise IndexError)
  /\ ((2 <= length users)%nat ->
      exists edge_list s',
        generate_random_reconstruction H users s = Ok (edge_list, s')
        /\ edge_shape users edge_list
        /\ (NoDup users ->
            forall root, nth_error users 0 = Some root ->
              rooted_tree root users edge_list)).
Proof.
  split; [apply generate_random_reconstruction_short|].
  intros HL.
  destruct (generate_random_reconstruction_ok users s HL)
    as [edge_list [s' [Hrun Hshape]]].
  exists edge_list, s'. split; [exact Hrun|]. split; [exact Hshape|].
  intros Hdistinct root Hroot. apply shape_rooted_tree; assumption.
Qed.

End RandomReconstruction.

Lemma generate_random_reconstruction_tree_witness :
  generate_random_reconstruction last_index [0%nat] 0%nat = Raise IndexError
  /\ exists edge_list s',
       generate_random_reconstruction last_index [0%nat; 1%nat; 2%nat] 0%nat
       = Ok (edge_list, s')
       /\ rooted_tree 0%nat [0%nat; 1%nat; 2%nat] edge_list.
Proof.
  split.
  - apply (proj1 (generate_random_reconstruction_tree nat last_index
                    [0%nat] 0%nat)). simpl; lia.
  - destruct (proj2 (generate_random_reconstruction_tree nat last_index
                       [0%nat; 1%nat; 2%nat] 0%nat))
      as [el [s' [Hrun [_ Htree]]]]; [simpl; lia|].
    exists el, s'. split; [exact Hrun|].
    apply Htree; [|reflexivity].
    repeat constructor; simpl; intuition lia.
Defined.

(** * The names of the output files *)

Module FileNameFacts.

Import String Ascii FileNames.
Local Open Scope string_scope.

Lemma length_append (a b : string) : length (a ++ b) = (length a + length b)%nat.
Proof. induction a as [|c a IH]; simpl; [|rewrite IH]; reflexivity. Qed.

Lemma append_empty_r (a : string) : a ++ EmptyString = a.
Proof. induction a as [|c a IH]; simpl; [|rewrite IH]; reflexivity. Qed.

Lemma append_inv_head (a x y : string) : a ++ x = a ++ y -> x = y.
Proof.
  induction a as [|c a IH]; simpl; intros H; [exact H|].
  injection H as H. apply IH. exact H.
Qed.

Lemma append_inv_tail (b x y : string) : x ++ b = y ++ b -> x = y.
Proof.
  revert y; induction x as [|c x IH]; intros [|d y] H; simpl in H.
  - reflexivity.
  - apply (f_equal length) in H. simpl in H. rewrite length_append in H. lia.
  - apply (f_equal length) in H. simpl in H. rewrite length_append in H. lia.
  - injection H as -> H. f_equal. apply IH. exact H.
Qed.

Lemma digits_value_zeros (k : nat) (s : string) :
  digits_value (zeros k ++ s) = digits_value s.
Proof.
  induction k as [|k IH]; simpl; [reflexivity|].
  unfold digits_value in *. simpl.
  destruct (DecimalString.NilEmpty.uint_of_string (zeros k ++ s)) as [d|];
    destruct (DecimalString.NilEmpty.uint_of_string s) as [d'|];
    simpl in *; try discriminate; [|reflexivity].
  injection IH as IH. f_equal. exact IH.
Qed.

Lemma py_str_digits (n : nat) :
  DecimalString.NilEmpty.uint_of_string (py_str n)
  = Some (match Nat.to_uint n with
          | Decimal.Nil => Decimal.D0 Decimal.Nil
          | d => d
          end).
Proof.
  unfold py_str, DecimalString.NilZero.string_of_uint.
  destruct (Nat.to_uint n) eqn:E; try apply DecimalString.NilEmpty.usu.
  reflexivity.
Qed.

Lemma digits_value_py_str (n : nat) : digits_value (py_str n) = Some n.
Proof.
  unfold digits_value. rewrite py_str_digits.
  pose proof (DecimalNat.Unsigned.of_to n) as H.
  destruct (Nat.to_uint n); simpl; f_equal; exact H.
Qed.

(** The decimal writing of a number starts with no sign. *)
Lemma zfill_py_str (n width : nat) :
  zfill (py_str n) width = zeros (width - length (py_str n)) ++ py_str n.
Proof.
  unfold zfill.
  destruct (width <=? length (py_str n))%nat eqn:E.
  - apply Nat.leb_le in E.
    replace (width - length (py_str n))%nat with 0%nat by lia. reflexivity.
  - pose proof (py_str_digits n) as Hd.
    destruct (py_str n) as [|c rest]; [rewrite append_empty_r; reflexivity|].
    destruct (Ascii.eqb c "+" || Ascii.eqb c "-")%bool eqn:Hs; [|reflexivity].
    exfalso. apply Bool.orb_true_iff in Hs.
    destruct Hs as [Hs|Hs]; apply Ascii.eqb_eq in Hs; subst c;
      simpl in Hd;
      destruct (DecimalString.NilEmpty.uint_of_string rest);
      discriminate.
Qed.

Lemma digits_value_zfill (k : nat) : digits_value (zfill (py_str k) 3) = Some k.
Proof.
  rewrite zfill_py_str, digits_value_zeros. apply digits_value_py_str.
Qed.

Lemma output_path_fname_inj (cascade_dir : string) (n m : nat) :
  output_path_fname cascade_dir n = output_path_fname cascade_dir m -> n = m.
Proof.
  intros Heq.
  assert (Hz : zfill (py_str n) 3 = zfill (py_str m) 3).
  { unfold output_path_fname, os_path_join in Heq.
    simpl startswith_sep in Heq. cbv iota in Heq.
    destruct (((length cascade_dir =? 0)%nat || endswith_sep cascade_dir)%bool).
    - apply append_inv_head in Heq. injection Heq as Heq.
      apply append_inv_tail in Heq. exact Heq.
    - apply append_inv_head in Heq. injection Heq as Heq.
      apply append_inv_tail in Heq. exact Heq. }
  pose proof (digits_value_zfill n) as Hn. rewrite Hz, digits_value_zfill in Hn.
  injection Hn as Hn. symmetry. exact Hn.
Qed.

(** X12.  The version number can be read back from the zero-padded digits
    of a file name, so that two versions of a cascade never get the same
    output path. *)
Theorem output_path_fname_injective (cascade_dir : string) (n m : nat) :
  digits_value (zfill (py_str n) 3) = Some n
  /\ (n <> m ->
      output_path_fname cascade_dir n <> output_path_fname cascade_dir m).
Proof.
  split; [apply digits_value_zfill|].
  intros Hne Heq. apply Hne. apply (output_path_fname_inj cascade_dir).
  exact Heq.
Qed.

Lemma output_path_fname_injective_witness :
  output_path_fname "out/00007" 1 = "out/00007/v_001.gmlz"
  /\ output_path_fname "out/00007" 1 <> output_path_fname "out/00007" 100.
Proof.
  split; [reflexivity|].
  apply (proj2 (output_path_fname_injective "out/00007" 1 100)). lia.
Defined.

(** ** The directory names of the Bluesky cascades *)

Lemma lacks_append (c : ascii) (a b : string) :
  lacks c (a ++ b) <-> lacks c a /\ lacks c b.
Proof.
  induction a as [|x a IH]; simpl; [tauto|]. rewrite IH. tauto.
Qed.

Lemma prefix_lacks (c : ascii) (old s : string) :
  prefix old s = true -> lacks c s -> lacks c old.
Proof.
  revert s; induction old as [|a old IH]; intros s Hp Hs; simpl; [exact I|].
  destruct s as [|b s]; simpl in Hp; [discriminate|].
  destruct (ascii_dec a b) as [->|]; [|discriminate].
  simpl in Hs. split; [tauto|]. apply (IH s); tauto.
Qed.

(** A text that lacks a character of the pattern is left as it is. *)
Lemma replace_from_lacks (c : ascii) (old new s : string) :
  ~ lacks c old -> lacks c s -> replace_from old new 0 s = s.
Proof.
  intros Hold. induction s as [|b s IH]; intros Hs; [reflexivity|].
  cbn [replace_from].
  destruct (prefix old (String b s)) eqn:Hp.
  - exfalso. apply Hold. exact (prefix_lacks c old _ Hp Hs).
  - f_equal. apply IH. simpl in Hs. tauto.
Qed.

Lemma replace_from_first_differs (old' new s : string) (a b : ascii) :
  b <> a ->
  replace_from (String a old') new 0 (String b s)
  = String b (replace_from (String a old') new 0 s).
Proof.
  intros Hne. cbn [replace_from prefix].
  destruct (ascii_dec a b) as [->|_]; [congruence|reflexivity].
Qed.

Lemma replace_slash_lacks (old' new a rest : string) :
  lacks "/" a ->
  replace_from (String "/" old') new 0 (a ++ rest)
  = a ++ replace_from (String "/" old') new 0 rest.
Proof.
  induction a as [|b a IH]; intros Ha; [reflexivity|].
  simpl in Ha. simpl append.
  rewrite replace_from_first_differs by tauto.
  rewrite IH by tauto. reflexivity.
Qed.

Lemma prefix_append (old t : string) : prefix old (old ++ t) = true.
Proof.
  induction old as [|a old IH]; simpl.
  - destruct t; reflexivity.
  - destruct (ascii_dec a a); [exact IH|congruence].
Qed.

Lemma replace_from_skip (old new a t : string) :
  replace_from old new (length a) (a ++ t) = replace_from old new 0 t.
Proof.
  induction a as [|x a IH]; [reflexivity|]. simpl. exact IH.
Qed.

(** At an occurrence of the pattern the replacement is written and the
    scan goes on behind the occurrence. *)
Lemma replace_from_occurrence (a : ascii) (old' new t : string) :
  replace_from (String a old') new 0 (String a old' ++ t)
  = new ++ replace_from (String a old') new 0 t.
Proof.
  change (String a old' ++ t) with (String a (old' ++ t)).
  cbn [replace_from].
  change (String a (old' ++ t)) with (String a old' ++ t).
  rewrite prefix_append.
  replace (length (String a old') - 1)%nat with (length old')
    by (simpl; lia).
  rewrite replace_from_skip. reflexivity.
Qed.

Lemma split_at_dash (a1 a2 b1 b2 : string) :
  lacks "-" a1 -> lacks "-" a2 ->
  a1 ++ "-" ++ b1 = a2 ++ "-" ++ b2 -> a1 = a2 /\ b1 = b2.
Proof.
  revert a2; induction a1 as [|x a1 IH]; intros [|y a2] H1 H2 Heq;
    simpl in *.
  - injection Heq as Heq. split; [reflexivity|exact Heq].
  - injection Heq as Hy _. exfalso. apply (proj1 H2). symmetry; exact Hy.
  - injection Heq as Hx _. exfalso. apply (proj1 H1). exact Hx.
  - injection Heq as -> Heq.
    destruct (IH a2 (proj2 H1) (proj2 H2) Heq) as [-> ->].
    split; reflexivity.
Qed.

(** X16.  For an account and a record name that hold no colon and no
    slash, the name made from the URI of the post is the account, a dash
    and the record name.  When accounts hold no dash either, two different
    posts never share that name. *)
Theorem clean_uri_for_fname_post (did rkey did' rkey' : string) :
  lacks ":" did -> lacks "/" did -> lacks ":" rkey -> lacks "/" rkey ->
  clean_uri_for_fname (post_uri did rkey) = did ++ "-" ++ rkey
  /\ (lacks ":" did' -> lacks "/" did' -> lacks ":" rkey' ->
      lacks "/" rkey' -> lacks "-" did -> lacks "-" did' ->
      clean_uri_for_fname (post_uri did rkey)
      = clean_uri_for_fname (post_uri did' rkey') ->
      post_uri did rkey = post_uri did' rkey').
Proof.
  assert (Hclean : forall d r,
            lacks ":" d -> lacks "/" d -> lacks ":" r -> lacks "/" r ->
            clean_uri_for_fname (post_uri d r) = d ++ "-" ++ r).
  { intros d r Hd1 Hd2 Hr1 Hr2.
    unfold clean_uri_for_fname, py_replace, post_uri.
    assert (H1 : replace_from "at://did:plc:" EmptyString 0
                   ("at://did:plc:" ++ d ++ "/app.bsky.feed.post/" ++ r)
                 = d ++ "/app.bsky.feed.post/" ++ r).
    { rewrite replace_from_occurrence. simpl append at 1.
      apply (replace_from_lacks ":").
      - simpl. intuition congruence.
      - apply lacks_append. split; [exact Hd1|].
        apply lacks_append. split; [|exact Hr1].
        simpl. repeat split; discriminate. }
    rewrite H1. rewrite replace_slash_lacks by exact Hd2.
    f_equal. rewrite replace_from_occurrence.
    f_equal. apply (replace_from_lacks "/"); [|exact Hr2].
    simpl. intuition congruence. }
  intros Hd1 Hd2 Hr1 Hr2. split; [apply Hclean; assumption|].
  intros Hd1' Hd2' Hr1' Hr2' Hdash Hdash' Heq.
  rewrite !Hclean in Heq by assumption.
  apply split_at_dash in Heq; [|assumption|assumption].
  destruct Heq as [-> ->]. reflexivity.
Qed.

Lemma clean_uri_for_fname_post_witness :
  lacks ":" "223yxsx3ifr4vghg36hi3w4a" /\ lacks "/" "3kmrdg2pfom2f"
  /\ clean_uri_for_fname
       "at://did:plc:223yxsx3ifr4vghg36hi3w4a/app.bsky.feed.post/3kmrdg2pfom2f"
     = "223yxsx3ifr4vghg36hi3w4a-3kmrdg2pfom2f".
Proof.
  split; [simpl; repeat split; discriminate|].
  split; [simpl; repeat split; discriminate|].
  refine (proj1 (clean_uri_for_fname_post "223yxsx3ifr4vghg36hi3w4a"
                   "3kmrdg2pfom2f" "223yxsx3ifr4vghg36hi3w4a"
                   "3kmrdg2pfom2f" _ _ _ _));
    simpl; repeat split; discriminate.
Defined.

Lemma set_add_new_length (a : string) (l : set string) :
  ~ In a l -> List.length (set_add string_dec a l) = S (List.length l).
Proof.
  induction l as [|b l IH]; intros Hnin; simpl; [reflexivity|].
  destruct (string_dec a b) as [->|Hne]; [exfalso; apply Hnin; left; reflexivity|].
  simpl. rewrite IH; [reflexivity|]. intros Hin. apply Hnin. right. exact Hin.
Qed.

Lemma write_versions_length (cascade_dir : string) (k start : nat)
    (listing : set string) :
  (forall x, In x listing ->
     exists v, (v < start)%nat /\ x = output_path_fname cascade_dir v) ->
  List.length
    (fold_left (fun files vnum =>
                  set_add string_dec (output_path_fname cascade_dir vnum) files)
               (seq start k) listing)
  = (List.length listing + k)%nat.
Proof.
  revert start listing; induction k as [|k IH]; intros start listing Hold;
    simpl; [lia|].
  rewrite IH.
  - rewrite set_add_new_length; [lia|].
    intros Hin. destruct (Hold _ Hin) as [v [Hv Heq]].
    apply output_path_fname_inj in Heq. lia.
  - intros x Hx. apply set_add_elim in Hx. destruct Hx as [->|Hx].
    + exists start. split; [lia|reflexivity].
    + destruct (Hold x Hx) as [v [Hv Heq]]. exists v. split; [lia|exact Heq].
Qed.

Section Resume.

Variable user : Type.
Variable Q : quadrature.
Variable G : generator.


End Resume.


End FileNameFacts.

(** * Invariances *)

Section Relabelling.

Variables user user' : Type.
Variable f : user -> user'.
Variable Q : quadrature.
Variable G : generator.

Local Abbreviation relabel_edge := (relabel_edge f).

Lemma choice_relabel (a : list user) (p : list npfloat) (s : state G) :
  choice G (map f a) p s = relabel_result f (choice G a p s).
Proof.
  unfold choice. rewrite length_map.
  destruct (length a =? 0)%nat; [reflexivity|].
  destruct (negb _); [reflexivity|].
  destruct (finite_values p) as [ps|]; [|reflexivity].
  destruct (has_negative ps); [reflexivity|].
  destruct (Rlt_dec atol (Rabs (np_sum ps - 1))); [reflexivity|].
  destruct (random_sample G s) as [u s1].
  rewrite nth_error_map.
  destruct (nth_error a _); reflexivity.
Qed.

Lemma get_who_rtd_whom_relabel (users : list user) (tstamps : list Z)
    (fcounts : list R) (curr : Z) (gamma alpha xmin : R) (s : state G) :
  get_who_rtd_whom Q G (map f users) tstamps fcounts curr gamma alpha xmin s
  = relabel_result f
      (get_who_rtd_whom Q G users tstamps fcounts curr gamma alpha xmin s).
Proof.
  unfold get_who_rtd_whom, bind, lift.
  destruct (indiv_probs Q tstamps fcounts curr gamma alpha xmin) as [p|e];
    [apply choice_relabel|reflexivity].
Qed.

Lemma for_each_relabel (users : list user) (tstamps : list Z)
    (fcounts : list R) (gamma alpha xmin : R) (idxs : list nat)
    (edge_list : list (edge user)) (s : state G) :
  for_each G
    (reconstruction_step Q G (map f users) tstamps fcounts gamma alpha xmin)
    idxs (map relabel_edge edge_list) s
  = relabel_result (map relabel_edge)
      (for_each G
         (reconstruction_step Q G users tstamps fcounts gamma alpha xmin)
         idxs edge_list s).
Proof.
  revert edge_list s; induction idxs as [|idx idxs IH]; intros edge_list s;
    [reflexivity|].
  simpl. unfold bind.
  assert (Hstep :
    reconstruction_step Q G (map f users) tstamps fcounts gamma alpha xmin
      (map relabel_edge edge_list) idx s
    = relabel_result (map relabel_edge)
        (reconstruction_step Q G users tstamps fcounts gamma alpha xmin
           edge_list idx s)).
  { unfold reconstruction_step, bind, lift, py_index, ret.
    destruct (nth_error tstamps idx) as [ts|]; [|reflexivity].
    rewrite nth_error_map.
    destruct (nth_error users idx) as [u|]; [|reflexivity]. simpl option_map.
    rewrite firstn_map, get_who_rtd_whom_relabel.
    destruct (get_who_rtd_whom Q G (firstn idx users) _ _ ts gamma alpha xmin s)
      as [[p s1]|e]; [|reflexivity].
    simpl. rewrite map_app. reflexivity. }
  rewrite Hstep.
  destruct (reconstruction_step Q G users tstamps fcounts gamma alpha xmin
              edge_list idx s) as [[el1 s1]|e]; [|reflexivity].
  simpl. apply IH.
Qed.


End Relabelling.

Lemma np_sum_map_shift (k : R) (l : list R) :
  np_sum (map (fun x => k * x) l) = k * np_sum l.
Proof. apply np_sum_map_scale. Qed.

Section Invariance.

Variable Q : quadrature.

(** X14.  The vector handed to the sampler depends on the timestamps through
    the gaps only and on the audience sizes through their proportions only:
    moving all the timestamps, the current one included, by the same amount
    and multiplying all the audience sizes by the same positive number
    leaves it as it is. *)
Theorem indiv_probs_shift_scale (tstamps : list Z) (fcounts : list R)
    (curr shift : Z) (k gamma alpha xmin : R) :
  0 < k ->
  indiv_probs Q (map (fun t => (t + shift)%Z) tstamps)
    (map (fun x => k * x) fcounts) (curr + shift) gamma alpha xmin
  = indiv_probs Q tstamps fcounts curr gamma alpha xmin.
Proof.
  intros Hk. unfold indiv_probs, norm_tstamp_prob_array, tdiff_probs.
  assert (Ht : time_diffs (curr + shift) (map (fun t => (t + shift)%Z) tstamps)
               = time_diffs curr tstamps).
  { unfold time_diffs. rewrite map_map. apply map_ext. intros t. lia. }
  assert (Hf : fcount_probabilities (map (fun x => k * x) fcounts)
               = fcount_probabilities fcounts).
  { unfold fcount_probabilities. rewrite !py_sum_np_sum, np_sum_map_shift.
    rewrite map_map. apply map_ext. intros x. unfold np_true_divide.
    destruct (Req_dec_T (k * np_sum fcounts) 0) as [Hz|Hz];
      destruct (Req_dec_T (np_sum fcounts) 0) as [Hz'|Hz'].
    - destruct (Req_dec_T (k * x) 0) as [Hx|Hx];
        destruct (Req_dec_T x 0) as [Hx'|Hx']; try reflexivity.
      + exfalso. apply Hx'. nra.
      + exfalso. apply Hx. nra.
      + destruct (Rlt_dec 0 (k * x)); destruct (Rlt_dec 0 x);
          try reflexivity; exfalso; nra.
    - exfalso. apply Hz'. nra.
    - exfalso. apply Hz. nra.
    - f_equal. field. split; lra. }
  rewrite Ht, Hf. reflexivity.
Qed.

End Invariance.

Lemma indiv_probs_shift_scale_witness :
  indiv_probs midpoint [100%Z; 110%Z] [5; 10] 120 (1 / 2) 2 1
  = indiv_probs midpoint [0%Z; 10%Z] [50; 100] 20 (1 / 2) 2 1.
Proof.
  rewrite <- (indiv_probs_shift_scale midpoint [100%Z; 110%Z] [5; 10]
                120 (-100) 10 (1 / 2) 2 1) by lra.
  simpl map. replace (10 * 5) with 50 by lra.
  replace (10 * 10) with 100 by lra. reflexivity.
Defined.
